(** * Contact_Manager: the duplicate-merge, undo and backup core of
    [contact_manager.py], embedded in Rocq and checked against its
    specification.

    Conventions of the embedding.
    - A Python [str] is the list of its code points ([pystr]).
    - A dict used as a map is a [gmap], a set a [gset]; a list updated by
      index uses stdpp's list lookup and insert.
    - The float returned by [SequenceMatcher.ratio] is the rational
      [2*M/T]; for the integers a name can give, the float comparison
      against the threshold and the rational one agree.
    - The file system is the record [world]: the rows of [contacts.csv] as
      [csv.DictReader] yields them, the JSON value of the snapshot file and
      the backup directory.  Clock readings and the lines typed at the
      prompt are arguments of the operations that consume them. *)

From Stdlib Require Import QArith Ascii String.
From stdpp Require Import strings gmap list sorting.

Local Open Scope nat_scope.

(** ** Python strings *)

Module PyStr.

Abbreviation char := N (only parsing).
Abbreviation pystr := (list N) (only parsing).

(** A literal, written as a Rocq string of ASCII characters. *)
Definition py (s : string) : pystr :=
  N_of_ascii <$> list_ascii_of_string s.

(** [str.isspace] on one code point, which is also the class [\s] of [re]
    on a [str] pattern. *)
Definition isspace (c : char) : bool :=
  ((9 <=? c) && (c <=? 13) || (28 <=? c) && (c <=? 32)
   || (c =? 133) || (c =? 160) || (c =? 5760)
   || (8192 <=? c) && (c <=? 8202)
   || (c =? 8232) || (c =? 8233) || (c =? 8239) || (c =? 8287)
   || (c =? 12288))%N.

Fixpoint lstrip (s : pystr) : pystr :=
  match s with
  | c :: s' => if isspace c then lstrip s' else s
  | [] => []
  end.

Definition rstrip (s : pystr) : pystr := reverse (lstrip (reverse s)).

(** [s.strip()] *)
Definition strip (s : pystr) : pystr := rstrip (lstrip s).

(** [s.split(sep)] for a one-character separator. *)
Fixpoint split (sep : char) (s : pystr) : list pystr :=
  match s with
  | [] => [[]]
  | c :: s' =>
      if (c =? sep)%N then [] :: split sep s'
      else match split sep s' with
           | h :: t => (c :: h) :: t
           | [] => [[c]]
           end
  end.

(** [sep.join(parts)] *)
Fixpoint join (sep : pystr) (parts : list pystr) : pystr :=
  match parts with
  | [] => []
  | [p] => p
  | p :: ps => p ++ sep ++ join sep ps
  end.

(** [s <= t] on [str]: lexicographic on code points. *)
Fixpoint str_leb (s t : pystr) : bool :=
  match s, t with
  | [], _ => true
  | _ :: _, [] => false
  | c :: s', d :: t' => (c <? d)%N || (c =? d)%N && str_leb s' t'
  end.

Definition str_le (s t : pystr) : Prop := str_leb s t = true.

#[global] Instance str_le_dec : RelDecision str_le.
Proof. intros s t. unfold str_le. apply _. Defined.

(** [sorted(xs)] for a set of strings [xs]: the elements are distinct and
    the order is total, so the result does not depend on the set's
    iteration order nor on the sorting algorithm. *)
Definition sorted (xs : gset pystr) : list pystr :=
  merge_sort str_le (elements xs).

Definition startswith (s p : pystr) : bool :=
  bool_decide (take (length p) s = p).

Definition endswith (s p : pystr) : bool :=
  bool_decide (drop (length s - length p) s = p) && (length p <=? length s).

(** ASCII case mapping: what [str.lower] and [str.upper] do on code
    points below 128. *)
Definition ascii_lower (c : char) : char :=
  if ((65 <=? c) && (c <=? 90))%N then (c + 32)%N else c.
Definition ascii_upper (c : char) : char :=
  if ((97 <=? c) && (c <=? 122))%N then (c - 32)%N else c.
Definition is_ascii (c : char) : Prop := (c < 128)%N.

(** [str.lower] and [str.upper] follow the Unicode case tables, which are
    no part of the program.  They are an interface here: any pair of
    functions that maps ASCII text the ASCII way. *)
Class CaseTables := {
  lower : pystr → pystr;
  upper : pystr → pystr;
  lower_ascii : ∀ s, Forall is_ascii s → lower s = ascii_lower <$> s;
  upper_ascii : ∀ s, Forall is_ascii s → upper s = ascii_upper <$> s;
}.

(** The tables restricted to ASCII letters (other code points unchanged). *)
#[global, refine] Instance ascii_tables : CaseTables :=
  {| lower := fmap ascii_lower; upper := fmap ascii_upper |}.
Proof. all: reflexivity. Defined.

(** *** Facts about [strip], [split] and [sorted] *)

Lemma lstrip_spaces s : Forall (λ c, isspace c = true) s → lstrip s = [].
Proof. induction 1 as [|c s Hc _ IH]; simpl; [done|]. by rewrite Hc. Qed.

Lemma lstrip_suffix s : lstrip s `suffix_of` s.
Proof.
  induction s as [|c s IH]; simpl; [done|].
  destruct (isspace c); [by apply suffix_cons_r|done].
Qed.

(** The string does not begin with whitespace. *)
Definition clean_head (s : list N) : Prop :=
  match s with
  | c :: _ => isspace c = false
  | [] => True
  end.

Lemma lstrip_fixed s : clean_head s → lstrip s = s.
Proof. destruct s as [|c s]; simpl; [done|]. by intros ->. Qed.

Lemma lstrip_head s : clean_head (lstrip s).
Proof.
  induction s as [|c s IH]; simpl; [done|].
  by destruct (isspace c) eqn:E.
Qed.

Lemma lstrip_idemp s : lstrip (lstrip s) = lstrip s.
Proof. apply lstrip_fixed, lstrip_head. Qed.

Lemma rstrip_prefix s : rstrip s `prefix_of` s.
Proof.
  unfold rstrip. apply prefix_suffix_reverse.
  rewrite reverse_involutive. apply lstrip_suffix.
Qed.

Lemma rstrip_idemp s : rstrip (rstrip s) = rstrip s.
Proof. unfold rstrip. by rewrite reverse_involutive, lstrip_idemp. Qed.

Lemma strip_spaces s : Forall (λ c, isspace c = true) s → strip s = [].
Proof. intros Hs. unfold strip. by rewrite lstrip_spaces. Qed.

(** [strip] is idempotent: a stripped string is free of surrounding
    whitespace. *)
Lemma strip_idemp s : strip (strip s) = strip s.
Proof.
  unfold strip.
  assert (lstrip (rstrip (lstrip s)) = rstrip (lstrip s)) as ->.
  { apply lstrip_fixed.
    pose proof (lstrip_head s) as Hh.
    destruct (rstrip_prefix (lstrip s)) as [k Hk].
    destruct (rstrip (lstrip s)) as [|c u]; [done|].
    by rewrite Hk in Hh. }
  apply rstrip_idemp.
Qed.

Lemma split_not_nil sep s : split sep s ≠ [].
Proof.
  destruct s as [|c s]; simpl; [done|].
  destruct (c =? sep)%N; [done|]. by destruct (split sep s).
Qed.

(** Splitting [s + sep + t] gives the pieces of [s], then those of [t]. *)
Lemma split_app sep s t :
  split sep (s ++ sep :: t) = split sep s ++ split sep t.
Proof.
  induction s as [|c s IH]; simpl.
  - by rewrite N.eqb_refl.
  - destruct (c =? sep)%N; [by rewrite IH|].
    rewrite IH. pose proof (split_not_nil sep s).
    by destruct (split sep s).
Qed.

Lemma str_leb_refl s : str_leb s s = true.
Proof.
  induction s as [|c s IH]; simpl; [done|].
  by rewrite N.eqb_refl, IH, orb_true_r.
Qed.

#[global] Instance str_le_total : Total str_le.
Proof.
  intros s. unfold str_le.
  induction s as [|c s IH]; intros [|d t]; simpl; auto.
  destruct (N.ltb_spec c d), (N.ltb_spec d c), (N.eqb_spec c d),
    (N.eqb_spec d c); simpl; auto; try lia.
Qed.

#[global] Instance str_le_trans : Transitive str_le.
Proof.
  intros s. unfold str_le.
  induction s as [|c s IH]; intros [|d t] [|e u]; simpl; try done.
  destruct (N.ltb_spec c d), (N.ltb_spec d e), (N.ltb_spec c e),
    (N.eqb_spec c d), (N.eqb_spec d e), (N.eqb_spec c e);
    simpl; try done; try lia.
  apply IH.
Qed.

#[global] Instance str_le_antisymm : AntiSymm (=) str_le.
Proof.
  intros s. unfold str_le.
  induction s as [|c s IH]; intros [|d t]; simpl; try done.
  destruct (N.ltb_spec c d), (N.ltb_spec d c), (N.eqb_spec c d),
    (N.eqb_spec d c); simpl; try done; try lia.
  intros H1 H2. subst. f_equal. by apply IH.
Qed.

(** [sorted(xs)] lists the elements of [xs], each once, in increasing
    order. *)
Lemma sorted_spec (xs : gset (list N)) :
  StronglySorted str_le (sorted xs) ∧ NoDup (sorted xs) ∧
  ∀ x, x ∈ sorted xs ↔ x ∈ xs.
Proof.
  unfold sorted. split_and!.
  - apply StronglySorted_merge_sort; apply _.
  - rewrite merge_sort_Permutation. apply NoDup_elements.
  - intros x. rewrite merge_sort_Permutation. apply elem_of_elements.
Qed.

Lemma ascii_lower_upper c : ascii_lower (ascii_upper c) = ascii_lower c.
Proof.
  unfold ascii_lower, ascii_upper.
  destruct (N.leb_spec 97 c), (N.leb_spec c 122); simpl;
    repeat match goal with
           | |- context [(?x <=? ?y)%N] => destruct (N.leb_spec x y); simpl
           end; lia.
Qed.

Lemma ascii_upper_is_ascii c : is_ascii c → is_ascii (ascii_upper c).
Proof.
  unfold is_ascii, ascii_upper.
  destruct (N.leb_spec 97 c), (N.leb_spec c 122); simpl; lia.
Qed.

Lemma startswith_app p s : startswith (p ++ s) p = true.
Proof. unfold startswith. apply bool_decide_eq_true. apply take_app_length. Qed.

Lemma endswith_app s p : endswith (s ++ p) p = true.
Proof.
  unfold endswith. rewrite length_app.
  replace (length s + length p - length p) with (length s) by lia.
  rewrite drop_app_length. rewrite bool_decide_eq_true_2 by done.
  simpl. apply Nat.leb_le. lia.
Qed.

End PyStr.
Import PyStr.

(** ** [difflib.SequenceMatcher(None, a, b)], as far as [ratio] uses it *)

Module Difflib.

(** [Match(a, b, size)] *)
Definition Match : Type := nat * nat * nat.

Section SequenceMatcher.
Variables a b : pystr.

(** [__chain_b], first loop: [b2j[elt]] lists the indices of [elt] in
    [b], in increasing order. *)
Definition b2j_all : gmap N (list nat) :=
  foldl (λ (b2j : gmap N (list nat)) '(i, elt),
           <[elt := default [] (b2j !! elt) ++ [i]]> b2j)
        ∅ (imap pair b).

(** [isjunk] is [None]: the junk set stays empty. *)
Definition isbjunk (elt : N) : bool := false.

(** [__chain_b], purge of popular elements ([autojunk] is on). *)
Definition b2j : gmap N (list nat) :=
  let n := length b in
  if 200 <=? n then
    let ntest := n / 100 + 1 in
    filter (λ kv : N * list nat, ¬ (ntest < length kv.2)) b2j_all
  else b2j_all.

(** [j2lenget(j-1, 0)]; for [j = 0] the key is [-1], never present. *)
Definition j2lenget_pred (j2len : gmap nat nat) (j : nat) : nat :=
  match j with
  | 0 => 0
  | S j' => default 0 (j2len !! j')
  end.

(** The inner [for j in b2j.get(a[i], nothing)] of [find_longest_match],
    with its [continue] and [break].  [i-k+1] is written [i+1-k]: [k]
    never exceeds [i+1]. *)
Fixpoint scan_row (i blo bhi : nat) (j2len : gmap nat nat)
    (js : list nat) (newj2len : gmap nat nat) (best : Match)
    : gmap nat nat * Match :=
  match js with
  | [] => (newj2len, best)
  | j :: js' =>
      if j <? blo then scan_row i blo bhi j2len js' newj2len best
      else if bhi <=? j then (newj2len, best)
      else
        let k := j2lenget_pred j2len j + 1 in
        let newj2len' := <[j := k]> newj2len in
        let best' := if best.2 <? k then (i + 1 - k, j + 1 - k, k)
                     else best in
        scan_row i blo bhi j2len js' newj2len' best'
  end.

(** [b2j.get(a[i], nothing)] *)
Definition b2j_get (i : nat) : list nat :=
  match a !! i with
  | Some elt => default [] (b2j !! elt)
  | None => []
  end.

(** The [for i in range(alo, ahi)] loop. *)
Definition scan_rows (alo ahi blo bhi : nat) : gmap nat nat * Match :=
  foldl (λ '(j2len, best) i,
           scan_row i blo bhi j2len (b2j_get i) ∅ best)
        (∅, (alo, blo, 0)) (seq alo (ahi - alo)).

(** [a[i] == b[j]], for indices in range (they always are). *)
Definition eq_at (i j : nat) : bool :=
  match a !! i, b !! j with
  | Some x, Some y => bool_decide (x = y)
  | _, _ => false
  end.

Definition junk_at (j : nat) : bool :=
  match b !! j with Some y => isbjunk y | None => false end.

(** The two [while besti > alo and bestj > blo and ...] loops; [junk]
    tells which of them. *)
Fixpoint extend_left (junk : bool) (alo blo besti bestj bestsize : nat)
    : Match :=
  match besti, bestj with
  | S i', S j' =>
      if (alo <? besti) && (blo <? bestj)
         && bool_decide (junk_at j' = junk) && eq_at i' j'
      then extend_left junk alo blo i' j' (bestsize + 1)
      else (besti, bestj, bestsize)
  | _, _ => (besti, bestj, bestsize)
  end.

(** The two [while besti+bestsize < ahi and ...] loops; [gap] is
    [ahi - (besti+bestsize)], so the first test of the loop is
    [gap > 0]. *)
Fixpoint extend_right (junk : bool) (bhi besti bestj : nat)
    (gap bestsize : nat) : nat :=
  match gap with
  | 0 => bestsize
  | S gap' =>
      if (bestj + bestsize <? bhi)
         && bool_decide (junk_at (bestj + bestsize) = junk)
         && eq_at (besti + bestsize) (bestj + bestsize)
      then extend_right junk bhi besti bestj gap' (bestsize + 1)
      else bestsize
  end.

Definition find_longest_match (alo ahi blo bhi : nat) : Match :=
  let '(besti, bestj, bestsize) := (scan_rows alo ahi blo bhi).2 in
  let '(besti, bestj, bestsize) :=
    extend_left false alo blo besti bestj bestsize in
  let bestsize :=
    extend_right false bhi besti bestj (ahi - (besti + bestsize)) bestsize in
  let '(besti, bestj, bestsize) :=
    extend_left true alo blo besti bestj bestsize in
  let bestsize :=
    extend_right true bhi besti bestj (ahi - (besti + bestsize)) bestsize in
  (besti, bestj, bestsize).

(** The [while queue:] loop of [get_matching_blocks].  The Python list
    [queue] is used as a stack: the head of [queue] here is its last
    element.  [None] when [fuel] iterations do not empty the queue. *)
Fixpoint blocks_loop (fuel : nat) (queue : list (nat * nat * nat * nat))
    (matching_blocks : list Match) : option (list Match) :=
  match queue with
  | [] => Some matching_blocks
  | (alo, ahi, blo, bhi) :: queue =>
      match fuel with
      | 0 => None
      | S fuel =>
          let '(i, j, k) := find_longest_match alo ahi blo bhi in
          if k =? 0 then blocks_loop fuel queue matching_blocks
          else
            let queue :=
              if (alo <? i) && (blo <? j) then (alo, i, blo, j) :: queue
              else queue in
            let queue :=
              if (i + k <? ahi) && (j + k <? bhi)
              then (i + k, ahi, j + k, bhi) :: queue
              else queue in
            blocks_loop fuel queue (matching_blocks ++ [(i, j, k)])
      end
  end.
End SequenceMatcher.

(** *** Bounds of [find_longest_match] *)

Section Bounds.
Variables a b : pystr.
Variables alo ahi blo bhi : nat.

(** The lengths recorded for the row before [i] fit between the lower
    bounds and the cell they end at; the best block lies in the window
    scanned so far. *)
Definition j2len_ok (i : nat) (j2len : gmap nat nat) : Prop :=
  ∀ j k, j2len !! j = Some k →
    1 ≤ k ∧ k + alo ≤ i ∧ k + blo ≤ j + 1 ∧ j < bhi.

Definition best_ok (i : nat) (best : Match) : Prop :=
  alo ≤ best.1.1 ∧ blo ≤ best.1.2 ∧
  best.1.1 + best.2 ≤ i ∧ best.1.2 + best.2 ≤ bhi.

Lemma j2lenget_pred_ok i j2len j :
  j2len_ok i j2len → blo ≤ j →
  j2lenget_pred j2len j + alo ≤ i ∨ j2lenget_pred j2len j = 0.
Proof.
  intros Hok Hj. destruct j as [|j']; simpl; [by right|].
  destruct (j2len !! j') as [k|] eqn:E; simpl; [|by right].
  left. destruct (Hok _ _ E) as (? & ? & ? & ?). lia.
Qed.

Lemma j2lenget_pred_le i j2len j :
  j2len_ok i j2len → blo ≤ j → j2lenget_pred j2len j + blo ≤ j.
Proof.
  intros Hok Hj. destruct j as [|j']; simpl; [lia|].
  destruct (j2len !! j') as [k|] eqn:E; simpl; [|lia].
  destruct (Hok _ _ E) as (? & ? & ? & ?). lia.
Qed.

Lemma scan_row_ok i j2len js newj2len best :
  alo ≤ i → j2len_ok i j2len →
  j2len_ok (S i) newj2len → best_ok (S i) best →
  j2len_ok (S i) (scan_row i blo bhi j2len js newj2len best).1 ∧
  best_ok (S i) (scan_row i blo bhi j2len js newj2len best).2.
Proof.
  intros Hi Hprev. revert newj2len best.
  induction js as [|j js IH]; intros newj2len best Hnew Hbest; simpl.
  { done. }
  destruct (Nat.ltb_spec j blo) as [Hlo|Hlo]; [by apply IH|].
  destruct (Nat.leb_spec bhi j) as [Hhi|Hhi]; [done|].
  pose proof (j2lenget_pred_ok i j2len j Hprev Hlo) as Hk1.
  pose proof (j2lenget_pred_le i j2len j Hprev Hlo) as Hk2.
  apply IH.
  - intros j0 k0. rewrite lookup_insert.
    case_decide as Hj0; [|by apply Hnew].
    intros [= <-]. subst j0. lia.
  - destruct best as [[bi bj] bs]. simpl.
    destruct (Nat.ltb_spec bs (j2lenget_pred j2len j + 1)); [|done].
    unfold best_ok. simpl. lia.
Qed.

Lemma scan_rows_from_ok n i st :
  alo ≤ i → j2len_ok i st.1 → best_ok i st.2 →
  let st' := foldl (λ '(j2len, best) i,
                      scan_row i blo bhi j2len (b2j_get a b i) ∅ best)
                   st (seq i n) in
  j2len_ok (i + n) st'.1 ∧ best_ok (i + n) st'.2.
Proof.
  revert i st. induction n as [|n IH]; intros i [j2len best] Hi Hj Hb; simpl.
  { by rewrite Nat.add_0_r. }
  simpl in Hj, Hb.
  destruct (scan_row_ok i j2len (b2j_get a b i) ∅ best) as [Hj' Hb'];
    [done|done| |..].
  { intros j k. by rewrite lookup_empty. }
  { unfold best_ok in *. lia. }
  replace (i + S n) with (S i + n) by lia.
  destruct (scan_row i blo bhi j2len (b2j_get a b i) ∅ best)
    as [j2len' best'] eqn:E.
  apply (IH (S i) (j2len', best')); [lia|done..].
Qed.

Lemma scan_rows_ok :
  alo ≤ ahi → blo ≤ bhi → best_ok ahi (scan_rows a b alo ahi blo bhi).2.
Proof.
  intros Ha Hb. unfold scan_rows.
  destruct (scan_rows_from_ok (ahi - alo) alo (∅, (alo, blo, 0))) as [_ H].
  - done.
  - intros j k. simpl. by rewrite lookup_empty.
  - unfold best_ok. simpl. lia.
  - by replace (alo + (ahi - alo)) with ahi in H by lia.
Qed.

Lemma extend_left_ok junk i besti bestj bestsize :
  best_ok i (besti, bestj, bestsize) →
  best_ok i (extend_left a b junk alo blo besti bestj bestsize).
Proof.
  revert bestj bestsize.
  induction besti as [|i' IH]; intros bestj bestsize Hb; simpl; [done|].
  destruct bestj as [|j']; [done|].
  destruct (_ && _) eqn:E; [|done].
  apply IH. repeat (apply andb_prop in E as [E ?]).
  apply Nat.ltb_lt in E. unfold best_ok in *. simpl in *.
  assert (blo < S j') by by apply Nat.ltb_lt. lia.
Qed.

Lemma extend_right_ok junk besti bestj gap bestsize :
  besti + bestsize + gap ≤ ahi → bestj + bestsize ≤ bhi →
  let k := extend_right a b junk bhi besti bestj gap bestsize in
  bestsize ≤ k ∧ besti + k ≤ ahi ∧ bestj + k ≤ bhi.
Proof.
  revert bestsize.
  induction gap as [|gap IH]; intros bestsize Ha Hb; simpl; [lia|].
  destruct (_ && _) eqn:E; [|lia].
  repeat (apply andb_prop in E as [E ?]). apply Nat.ltb_lt in E.
  destruct (IH (bestsize + 1)) as (? & ? & ?); [lia..|]. lia.
Qed.

(** [find_longest_match] returns a block inside the window it is given. *)
Lemma find_longest_match_bounds i j k :
  alo ≤ ahi → blo ≤ bhi →
  find_longest_match a b alo ahi blo bhi = (i, j, k) →
  alo ≤ i ∧ i + k ≤ ahi ∧ blo ≤ j ∧ j + k ≤ bhi.
Proof.
  intros Ha Hb. unfold find_longest_match.
  pose proof (scan_rows_ok Ha Hb) as H0.
  destruct (scan_rows a b alo ahi blo bhi).2 as [[i0 j0] k0].
  pose proof (extend_left_ok false ahi i0 j0 k0 H0) as H1.
  destruct (extend_left a b false alo blo i0 j0 k0) as [[i1 j1] k1].
  unfold best_ok in H1. simpl in H1.
  destruct (extend_right_ok false i1 j1 (ahi - (i1 + k1)) k1)
    as (H2a & H2b & H2c); [lia..|].
  set (k2 := extend_right a b false bhi i1 j1 (ahi - (i1 + k1)) k1) in *.
  assert (best_ok ahi (i1, j1, k2)) as H2 by (unfold best_ok; simpl; lia).
  pose proof (extend_left_ok true ahi i1 j1 k2 H2) as H3.
  destruct (extend_left a b true alo blo i1 j1 k2) as [[i3 j3] k3].
  unfold best_ok in H3. simpl in H3.
  destruct (extend_right_ok true i3 j3 (ahi - (i3 + k3)) k3)
    as (H4a & H4b & H4c); [lia..|].
  intros [= <- <- <-]. lia.
Qed.
End Bounds.

(** *** The queue of [get_matching_blocks] empties, and the blocks fit *)

Definition region : Type := nat * nat * nat * nat.

Definition region_wf (r : region) : Prop :=
  let '(alo, ahi, blo, bhi) := r in alo ≤ ahi ∧ blo ≤ bhi.

(** Iterations a window can cost: every block found shortens what is left
    of [a] by at least one element. *)
Definition region_cost (r : region) : nat :=
  let '(alo, ahi, blo, bhi) := r in 2 * (ahi - alo) + 1.

(** Elements a window can still match. *)
Definition region_room (r : region) : nat :=
  let '(alo, ahi, blo, bhi) := r in (ahi - alo) `min` (bhi - blo).

(** [sum(triple[-1] for triple in blocks)] *)
Definition sizes (blocks : list Match) : nat := sum_list_with snd blocks.

Lemma sizes_app l1 l2 : sizes (l1 ++ l2) = sizes l1 + sizes l2.
Proof. apply sum_list_with_app. Qed.

Lemma sizes_Permutation l1 l2 : l1 ≡ₚ l2 → sizes l1 = sizes l2.
Proof. intros H. unfold sizes. by rewrite H. Qed.

Lemma blocks_loop_spec a b fuel queue acc :
  Forall region_wf queue →
  sum_list_with region_cost queue ≤ fuel →
  ∃ blocks, blocks_loop a b fuel queue acc = Some blocks ∧
            sizes blocks ≤ sizes acc + sum_list_with region_room queue.
Proof.
  revert queue acc.
  induction fuel as [|fuel IH]; intros queue acc Hwf Hfuel.
  { destruct queue as [|[[[alo ahi] blo] bhi] queue]; simpl in *.
    - exists acc. split; [done|lia].
    - lia. }
  destruct queue as [|[[[alo ahi] blo] bhi] queue]; simpl in *.
  { exists acc. split; [done|lia]. }
  apply Forall_cons in Hwf as [[Ha Hb] Hwf].
  destruct (find_longest_match a b alo ahi blo bhi) as [[i j] k] eqn:E.
  destruct (find_longest_match_bounds a b alo ahi blo bhi i j k Ha Hb E)
    as (Hi & Hik & Hj & Hjk).
  destruct (Nat.eqb_spec k 0) as [->|Hk].
  { destruct (IH queue acc Hwf) as (r & Hr & Hs); [lia|].
    exists r. split; [done|lia]. }
  set (q1 := if (alo <? i) && (blo <? j) then (alo, i, blo, j) :: queue
             else queue).
  set (q2 := if (i + k <? ahi) && (j + k <? bhi)
             then (i + k, ahi, j + k, bhi) :: q1 else q1).
  assert (Forall region_wf q2 ∧
          sum_list_with region_cost q2 ≤ fuel ∧
          k + sum_list_with region_room q2
            ≤ (ahi - alo) `min` (bhi - blo) + sum_list_with region_room queue)
    as (Hwf2 & Hc2 & Hr2).
  { subst q2 q1.
    destruct (alo <? i) eqn:E1; destruct (blo <? j) eqn:E2;
      destruct (i + k <? ahi) eqn:E3; destruct (j + k <? bhi) eqn:E4;
      simpl; repeat rewrite Forall_cons; simpl;
      try apply Nat.ltb_lt in E1; try apply Nat.ltb_lt in E2;
      try apply Nat.ltb_lt in E3; try apply Nat.ltb_lt in E4;
      (split_and!; [try done; try lia..]). }
  destruct (IH q2 (acc ++ [(i, j, k)]) Hwf2 Hc2) as (r & Hr & Hs).
  exists r. split; [done|].
  rewrite sizes_app in Hs. unfold sizes in *. simpl in Hs. lia.
Qed.

(** Tuple order of [matching_blocks.sort()]. *)
Definition match_le (x y : Match) : Prop :=
  let '(i1, j1, k1) := x in
  let '(i2, j2, k2) := y in
  i1 < i2 ∨ i1 = i2 ∧ (j1 < j2 ∨ j1 = j2 ∧ k1 ≤ k2).

#[global] Instance match_le_dec : RelDecision match_le.
Proof. intros [[i1 j1] k1] [[i2 j2] k2]. unfold match_le. apply _. Defined.

(** The loop that joins adjacent blocks; [cur] is [(i1, j1, k1)]. *)
Fixpoint non_adjacent_loop (cur : Match) (blocks : list Match)
    (non_adjacent : list Match) : list Match :=
  let '(i1, j1, k1) := cur in
  match blocks with
  | [] => if k1 =? 0 then non_adjacent else non_adjacent ++ [cur]
  | (i2, j2, k2) :: rest =>
      if (i1 + k1 =? i2) && (j1 + k1 =? j2)
      then non_adjacent_loop (i1, j1, k1 + k2) rest non_adjacent
      else non_adjacent_loop (i2, j2, k2) rest
             (if k1 =? 0 then non_adjacent else non_adjacent ++ [cur])
  end.

(** Iterations that empty the queue of [get_matching_blocks] (see
    [blocks_loop_total]). *)
Definition blocks_fuel (a : pystr) : nat := 2 * length a + 1.

Definition get_matching_blocks (a b : pystr) : option (list Match) :=
  let la := length a in
  let lb := length b in
  blocks ← blocks_loop a b (blocks_fuel a) [(0, la, 0, lb)] [];
  let blocks := merge_sort match_le blocks in
  Some (non_adjacent_loop (0, 0, 0) blocks [] ++ [(la, lb, 0)]).

(** [_calculate_ratio]: [2.0 * matches / length], [1.0] for length 0. *)
Definition calculate_ratio (matches length : nat) : Q :=
  if length =? 0 then 1%Q
  else (Z.of_nat (2 * matches) # Pos.of_nat length)%Q.

Definition ratio (a b : pystr) : option Q :=
  blocks ← get_matching_blocks a b;
  Some (calculate_ratio (sizes blocks) (length a + length b)).

(** *** [ratio] returns, and what it returns lies in [0, 1] *)

Lemma non_adjacent_loop_sizes cur blocks non_adjacent :
  sizes (non_adjacent_loop cur blocks non_adjacent)
  = sizes non_adjacent + cur.2 + sizes blocks.
Proof.
  revert cur non_adjacent.
  induction blocks as [|[[i2 j2] k2] rest IH];
    intros [[i1 j1] k1] non_adjacent; simpl.
  - destruct (Nat.eqb_spec k1 0) as [->|?]; rewrite ?sizes_app;
      unfold sizes; simpl; lia.
  - destruct (_ && _); rewrite IH; [unfold sizes; simpl; lia|].
    destruct (Nat.eqb_spec k1 0) as [->|?]; rewrite ?sizes_app;
      unfold sizes; simpl; lia.
Qed.

Lemma get_matching_blocks_spec a b :
  ∃ blocks, get_matching_blocks a b = Some blocks ∧
            sizes blocks ≤ length a `min` length b.
Proof.
  unfold get_matching_blocks.
  destruct (blocks_loop_spec a b (blocks_fuel a)
              [(0, length a, 0, length b)] []) as (r & -> & Hr).
  - repeat constructor; simpl; lia.
  - unfold blocks_fuel. simpl. lia.
  - simpl. eexists. split; [done|].
    rewrite sizes_app, non_adjacent_loop_sizes.
    rewrite (sizes_Permutation _ _ (merge_sort_Permutation match_le r)).
    unfold sizes in *. simpl in *. lia.
Qed.

Lemma calculate_ratio_range matches length :
  2 * matches ≤ length →
  (0 <= calculate_ratio matches length <= 1)%Q.
Proof.
  intros H. unfold calculate_ratio.
  destruct (Nat.eqb_spec length 0) as [->|Hlen]; [done|].
  unfold Qle. simpl. lia.
Qed.

Lemma ratio_range a b :
  ∃ q, ratio a b = Some q ∧ (0 <= q <= 1)%Q.
Proof.
  unfold ratio.
  destruct (get_matching_blocks_spec a b) as (blocks & -> & Hs). simpl.
  eexists. split; [done|].
  apply calculate_ratio_range. lia.
Qed.

(** *** What [b2j] holds *)

(** The positions of [c] in [l], counted from [k]. *)
Fixpoint indices_from (k : nat) (c : N) (l : pystr) : list nat :=
  match l with
  | [] => []
  | x :: l' => (if decide (x = c) then [k] else []) ++ indices_from (S k) c l'
  end.

Lemma indices_from_snoc k c l x :
  indices_from k c (l ++ [x])
  = indices_from k c l ++ (if decide (x = c) then [k + length l] else []).
Proof.
  revert k. induction l as [|y l IH]; intros k; simpl.
  - rewrite Nat.add_0_r. by rewrite app_nil_r.
  - rewrite IH, <- app_assoc. by replace (S k + length l) with (k + S (length l)) by lia.
Qed.

Lemma elem_of_indices_from k c l j :
  j ∈ indices_from k c l ↔ k ≤ j ∧ l !! (j - k) = Some c.
Proof.
  revert k. induction l as [|x l IH]; intros k; simpl.
  - rewrite elem_of_nil, lookup_nil. split; [done|by intros [_ ?]].
  - rewrite elem_of_app, IH. split.
    + intros [H|[H1 H2]].
      * case_decide; [|by apply elem_of_nil in H].
        apply list_elem_of_singleton in H as ->. subst.
        split; [lia|]. by rewrite Nat.sub_diag.
      * split; [lia|]. by replace (j - k) with (S (j - S k)) by lia.
    + intros [H1 H2]. destruct (decide (j = k)) as [->|Hne].
      * left. rewrite Nat.sub_diag in H2. simplify_eq/=.
        rewrite decide_True by done. by apply list_elem_of_singleton.
      * right. split; [lia|].
        by replace (j - k) with (S (j - S k)) in H2 by lia.
Qed.

Lemma indices_from_sorted k c l : StronglySorted lt (indices_from k c l).
Proof.
  revert k. induction l as [|x l IH]; intros k; simpl; [constructor|].
  apply StronglySorted_app_2; [|case_decide; repeat constructor|apply IH].
  intros x1 x2 H1 H2. apply elem_of_indices_from in H2 as [H2 _].
  case_decide; [|by apply elem_of_nil in H1].
  apply list_elem_of_singleton in H1 as ->. lia.
Qed.

Lemma b2j_all_lookup b c : default [] (b2j_all b !! c) = indices_from 0 c b.
Proof.
  induction b as [|x b IH] using rev_ind; [done|].
  unfold b2j_all in *. rewrite imap_app, foldl_app. simpl.
  rewrite indices_from_snoc, Nat.add_0_r. simpl.
  rewrite lookup_insert. case_decide as Hx.
  - subst c. simpl. by rewrite IH.
  - by rewrite IH, app_nil_r.
Qed.

Lemma b2j_lookup b c js : b2j b !! c = Some js → js = indices_from 0 c b.
Proof.
  intros H. rewrite <- b2j_all_lookup.
  unfold b2j in H. destruct (200 <=? length b).
  - apply map_lookup_filter_Some_1_1 in H. by rewrite H.
  - by rewrite H.
Qed.

(** *** A sequence against itself: the longest match is the whole window

    With the popular elements purged from [b2j], the first loop of
    [find_longest_match] sees only runs of kept elements.  On [a] against
    [a] the longest such run is first met on the diagonal, and the two
    extension loops then stretch it over the whole window. *)

Section Diagonal.
Variable a : pystr.
Variables lo hi : nat.
Hypothesis Hlohi : lo ≤ hi.
Hypothesis Hhi : hi ≤ length a.

(** [a[i]] is still a key of [b2j]. *)
Definition kept (i : nat) : bool :=
  match a !! i with
  | Some c => bool_decide (is_Some (b2j a !! c))
  | None => false
  end.

(** Length of the run of kept elements that ends at [j], cut at [lo]. *)
Fixpoint run (j : nat) : nat :=
  match j with
  | 0 => if kept 0 && (lo <=? 0) then 1 else 0
  | S j' => if kept (S j') && (lo <=? S j') then run j' + 1 else 0
  end.

Definition predrun (j : nat) : nat :=
  match j with 0 => 0 | S j' => run j' end.

Lemma run_eq j :
  run j = if kept j && (lo <=? j) then predrun j + 1 else 0.
Proof. by destruct j. Qed.

Lemma run_below j : j < lo → run j = 0.
Proof.
  intros H. rewrite run_eq.
  destruct (Nat.leb_spec lo j); [lia|]. by rewrite andb_false_r.
Qed.

Lemma predrun_below j : j ≤ lo → predrun j = 0.
Proof. intros H. destruct j as [|j']; [done|]. apply run_below. lia. Qed.

Definition diag_inv (i : nat) (st : gmap nat nat * Match) : Prop :=
  (∀ j k, st.1 !! j = Some k → k ≤ run j ∧ k ≤ predrun i) ∧
  j2lenget_pred st.1 i = predrun i ∧
  (∀ j, lo ≤ j < i → run j ≤ st.2.2) ∧
  st.2.1.1 = st.2.1.2.

Lemma j2lenget_pred_run i j2len j :
  (∀ j k, j2len !! j = Some k → k ≤ run j ∧ k ≤ predrun i) →
  j2lenget_pred j2len j ≤ predrun j ∧ j2lenget_pred j2len j ≤ predrun i.
Proof.
  intros H. destruct j as [|j']; simpl; [lia|].
  destruct (j2len !! j') as [k|] eqn:E; simpl; [|lia].
  by apply H.
Qed.

Lemma scan_row_diag i c j2len :
  lo ≤ i < hi → a !! i = Some c → kept i = true →
  (∀ j k, j2len !! j = Some k → k ≤ run j ∧ k ≤ predrun i) →
  j2lenget_pred j2len i = predrun i →
  ∀ js newj2len best,
    StronglySorted lt js → (∀ j, j ∈ js → a !! j = Some c) →
    (∀ j k, newj2len !! j = Some k → k ≤ run j ∧ k ≤ run i) →
    (i ∈ js ∨ newj2len !! i = Some (run i) ∧ run i ≤ best.2) →
    best.1.1 = best.1.2 →
    (∀ j, lo ≤ j < i → run j ≤ best.2) →
    let st' := scan_row i lo hi j2len js newj2len best in
    (∀ j k, st'.1 !! j = Some k → k ≤ run j ∧ k ≤ run i) ∧
    (st'.1 !! i = Some (run i) ∧ run i ≤ st'.2.2) ∧
    st'.2.1.1 = st'.2.1.2 ∧
    (∀ j, lo ≤ j < i → run j ≤ st'.2.2).
Proof.
  intros Hi Hc Hkept Hprev Hdiag.
  assert (run i = predrun i + 1) as Hruni.
  { rewrite run_eq, Hkept. by destruct (Nat.leb_spec lo i); [|lia]. }
  induction js as [|j js IH]; intros newj2len best Hs Hjs Hnew Hme Hbd Hbest;
    simpl.
  { destruct Hme as [Hme|Hme]; [by apply elem_of_nil in Hme|done]. }
  apply StronglySorted_cons in Hs as [Hlt Hs].
  rewrite Forall_forall in Hlt.
  assert (∀ j', j' ∈ js → a !! j' = Some c) as Hjs'.
  { intros j' Hj'. apply Hjs. by right. }
  destruct (Nat.ltb_spec j lo) as [Hlo|Hlo].
  { apply IH; try done.
    destruct Hme as [Hme|Hme]; [|by right].
    apply elem_of_cons in Hme as [->|Hme]; [lia|by left]. }
  destruct (Nat.leb_spec hi j) as [Hhij|Hhij].
  { simpl. split; [done|]. split; [|done].
    destruct Hme as [Hme|Hme]; [|done].
    apply elem_of_cons in Hme as [->|Hme]; [lia|].
    apply Hlt in Hme. lia. }
  destruct (j2lenget_pred_run i j2len j Hprev) as [Hp1 Hp2].
  assert (run j = predrun j + 1) as Hrunj.
  { rewrite run_eq. unfold kept in *.
    rewrite (Hjs j) by left. rewrite Hc in Hkept. rewrite Hkept.
    by destruct (Nat.leb_spec lo j); [|lia]. }
  set (k := j2lenget_pred j2len j + 1).
  assert (∀ j0 k0, <[j:=k]> newj2len !! j0 = Some k0 →
                   k0 ≤ run j0 ∧ k0 ≤ run i) as Hnew'.
  { intros j0 k0. rewrite lookup_insert.
    case_decide as Hj0; [|by apply Hnew].
    intros [= <-]. subst j0 k. lia. }
  destruct (decide (j = i)) as [->|Hne].
  - (* the diagonal cell *)
    assert (k = run i) as Hk by (subst k; lia).
    apply IH; try done.
    + right. rewrite lookup_insert_eq, Hk. split; [done|].
      destruct best as [[bi bj] bs]. simpl.
      destruct (Nat.ltb_spec bs (run i)); simpl; lia.
    + destruct best as [[bi bj] bs]. simpl in *.
      by destruct (Nat.ltb_spec bs k).
    + intros j0 Hj0. specialize (Hbest j0 Hj0).
      destruct best as [[bi bj] bs]. simpl in *.
      destruct (Nat.ltb_spec bs k); simpl; lia.
  - (* off the diagonal: the best block does not change *)
    assert (k ≤ best.2) as Hkb.
    { destruct (decide (j < i)) as [Hji|Hji].
      - specialize (Hbest j). subst k. lia.
      - destruct Hme as [Hme|[_ Hme]]; [|subst k; lia].
        apply elem_of_cons in Hme as [->|Hme]; [done|].
        apply Hlt in Hme. lia. }
    destruct (Nat.ltb_spec best.2 k) as [?|_]; [lia|].
    apply IH; try done.
    destruct Hme as [Hme|[Hme1 Hme2]].
    + apply elem_of_cons in Hme as [->|Hme]; [done|by left].
    + right. by rewrite lookup_insert_ne.
Qed.

Lemma scan_row_step i st :
  lo ≤ i < hi → diag_inv i st →
  diag_inv (S i) (scan_row i lo hi st.1 (b2j_get a a i) ∅ st.2).
Proof.
  intros Hi (Ha & Hc & Hb & Hd).
  destruct (lookup_lt_is_Some_2 a i) as [c Hai]; [lia|].
  unfold b2j_get. rewrite Hai.
  destruct (b2j a !! c) as [js|] eqn:Hjs; simpl.
  - assert (kept i = true) as Hkept.
    { unfold kept. rewrite Hai, Hjs. by apply bool_decide_eq_true. }
    apply b2j_lookup in Hjs. subst js.
    destruct (scan_row_diag i c st.1 Hi Hai Hkept Ha Hc
                (indices_from 0 c a) ∅ st.2)
      as (H1 & [H2 H3] & H4 & H5); try done.
    + apply indices_from_sorted.
    + intros j Hj. apply elem_of_indices_from in Hj as [_ Hj].
      by rewrite Nat.sub_0_r in Hj.
    + left. apply elem_of_indices_from. split; [lia|].
      by rewrite Nat.sub_0_r.
    + split_and!; try done.
      * simpl. by rewrite H2.
      * intros j Hj. destruct (decide (j = i)) as [->|]; [done|].
        apply H5. lia.
  - assert (run i = 0) as Hrun.
    { rewrite run_eq. unfold kept. rewrite Hai, Hjs.
      rewrite bool_decide_eq_false_2; [done|]. by intros [? ?]. }
    split_and!; simpl; try done.
    intros j Hj. destruct (decide (j = i)) as [->|]; [lia|].
    apply Hb. lia.
Qed.

Lemma scan_rows_from_diag n i st :
  lo ≤ i → i + n ≤ hi → diag_inv i st →
  diag_inv (i + n)
    (foldl (λ '(j2len, best) i,
              scan_row i lo hi j2len (b2j_get a a i) ∅ best)
           st (seq i n)).
Proof.
  revert i st. induction n as [|n IH]; intros i st Hi Hn Hinv; simpl.
  { by rewrite Nat.add_0_r. }
  replace (i + S n) with (S i + n) by lia.
  destruct st as [j2len best].
  apply IH; [lia..|].
  by apply (scan_row_step i (j2len, best)); [lia|].
Qed.

Lemma scan_rows_diag :
  (scan_rows a a lo hi lo hi).2.1.1 = (scan_rows a a lo hi lo hi).2.1.2.
Proof.
  unfold scan_rows.
  destruct (scan_rows_from_diag (hi - lo) lo (∅, (lo, lo, 0)))
    as (_ & _ & _ & H); [lia..| |done].
  split_and!; simpl; try done.
  - rewrite predrun_below by done. clear. by destruct lo.
  - intros j Hj. lia.
Qed.
End Diagonal.

Lemma eq_at_diag a i : i < length a → eq_at a a i i = true.
Proof.
  intros H. unfold eq_at.
  destruct (lookup_lt_is_Some_2 a i H) as [c ->].
  by apply bool_decide_eq_true.
Qed.

Lemma junk_at_false b j : junk_at b j = false.
Proof. unfold junk_at. by destruct (b !! j). Qed.

Lemma extend_left_diag a lo i k :
  i ≤ length a → lo ≤ i →
  extend_left a a false lo lo i i k = (lo, lo, k + (i - lo)).
Proof.
  revert k. induction i as [|i IH]; intros k Hi Hlo; simpl.
  { replace lo with 0 by lia. by rewrite Nat.add_0_r. }
  rewrite junk_at_false, eq_at_diag by lia.
  destruct (Nat.ltb_spec lo (S i)) as [H|H]; simpl.
  - rewrite IH by lia. f_equal. lia.
  - replace lo with (S i) by lia. by rewrite Nat.sub_diag, Nat.add_0_r.
Qed.

Lemma extend_left_junk a b alo blo besti bestj bestsize :
  extend_left a b true alo blo besti bestj bestsize
  = (besti, bestj, bestsize).
Proof.
  destruct besti, bestj; simpl; try done.
  rewrite junk_at_false. simpl. by rewrite andb_false_r.
Qed.

Lemma extend_right_diag a hi lo gap k :
  lo + k + gap = hi → hi ≤ length a →
  extend_right a a false hi lo lo gap k = k + gap.
Proof.
  revert k. induction gap as [|gap IH]; intros k Hk Hhi; simpl; [lia|].
  rewrite junk_at_false, eq_at_diag by lia.
  destruct (Nat.ltb_spec (lo + k) hi); [|lia]. simpl.
  rewrite IH by lia. lia.
Qed.

Lemma extend_right_junk a b bhi besti bestj gap bestsize :
  extend_right a b true bhi besti bestj gap bestsize = bestsize.
Proof.
  destruct gap; simpl; [done|].
  rewrite junk_at_false. simpl. by rewrite andb_false_r.
Qed.

(** On [a] against [a], [find_longest_match] returns its whole window. *)
Lemma find_longest_match_refl a lo hi :
  lo ≤ hi → hi ≤ length a →
  find_longest_match a a lo hi lo hi = (lo, lo, hi - lo).
Proof.
  intros Hlo Hhi. unfold find_longest_match.
  pose proof (scan_rows_diag a lo hi Hlo Hhi) as Hd.
  pose proof (scan_rows_ok a a lo hi lo hi Hlo Hlo) as Hb.
  destruct (scan_rows a a lo hi lo hi).2 as [[i0 j0] k0].
  unfold best_ok in Hb. simpl in Hd, Hb. subst j0.
  rewrite extend_left_diag by lia.
  rewrite extend_right_diag by lia.
  rewrite extend_left_junk, extend_right_junk.
  f_equal. lia.
Qed.

Lemma blocks_loop_nil a b fuel acc : blocks_loop a b fuel [] acc = Some acc.
Proof. by destruct fuel. Qed.

(** [SequenceMatcher(None, a, a).ratio()] is [1.0]. *)
Lemma ratio_refl a : ∃ q, ratio a a = Some q ∧ (q == 1)%Q.
Proof.
  unfold ratio, get_matching_blocks, blocks_fuel.
  replace (2 * length a + 1) with (S (2 * length a)) by lia. simpl.
  rewrite find_longest_match_refl by lia.
  rewrite Nat.sub_0_r.
  destruct (Nat.eqb_spec (length a) 0) as [E|E].
  - rewrite E. simpl. exists 1%Q. split; [|done].
    unfold calculate_ratio. simpl. done.
  - rewrite Nat.ltb_irrefl, blocks_loop_nil. simpl.
    eexists. split; [done|].
    destruct (Nat.eqb_spec (length a) 0) as [|_]; [done|].
    unfold sizes, calculate_ratio. simpl.
    destruct (Nat.eqb_spec (length a + length a) 0); [lia|].
    unfold Qeq. simpl. lia.
Qed.

End Difflib.






(** ** [difflib.get_close_matches] *)

Module DifflibClose.
Import Difflib.

(** [real_quick_ratio] of [SequenceMatcher(None, a, b)] *)
Definition real_quick_ratio (a b : pystr) : Q :=
  calculate_ratio (length a `min` length b) (length a + length b).

(** [fullbcount]: how often each element occurs in [b]. *)
Definition fullbcount (b : pystr) : gmap N Z :=
  foldl (λ (m : gmap N Z) elt, <[elt := (default 0 (m !! elt) + 1)%Z]> m) ∅ b.

(** One turn of the loop of [quick_ratio] over [a]: the dict [avail] and
    [matches]. *)
Definition quick_step (b : pystr) (st : gmap N Z * nat) (elt : N)
    : gmap N Z * nat :=
  let '(avail, matches) := st in
  let numb : Z :=
    match avail !! elt with
    | Some numb => numb
    | None => default 0%Z (fullbcount b !! elt)
    end in
  (<[elt := (numb - 1)%Z]> avail,
   if (0 <? numb)%Z then matches + 1 else matches).

Definition quick_loop (a b : pystr) : gmap N Z * nat :=
  foldl (quick_step b) (∅, 0) a.

(** [quick_ratio] *)
Definition quick_ratio (a b : pystr) : Q :=
  calculate_ratio (quick_loop a b).2 (length a + length b).

(** Order of the tuples [(score, x)], greatest first: what
    [heapq.nlargest] sorts by. *)
Definition scored_geb (p q : Q * list N) : bool :=
  Qle_bool q.1 p.1 && (negb (Qle_bool p.1 q.1) || str_leb q.2 p.2).

Definition scored_ge (p q : Q * list N) : Prop := scored_geb p q = true.

#[global] Instance scored_ge_dec : RelDecision scored_ge.
Proof. intros p q. unfold scored_ge. apply _. Defined.

(** The loop over [possibilities]: [seq2] is [word], [seq1] is [x]. *)
Fixpoint close_loop (word : pystr) (cutoff : Q) (possibilities : list pystr)
    (result : list (Q * list N)) : option (list (Q * list N)) :=
  match possibilities with
  | [] => Some result
  | x :: rest =>
      if Qle_bool cutoff (real_quick_ratio x word)
         && Qle_bool cutoff (quick_ratio x word)
      then
        r ← ratio x word;
        if Qle_bool cutoff r
        then close_loop word cutoff rest (result ++ [(r, x)])
        else close_loop word cutoff rest result
      else close_loop word cutoff rest result
  end.

(** [get_close_matches(word, possibilities, n, cutoff)], for [n > 0] and a
    cutoff in [[0, 1]]; [None] only for [ratio] out of fuel. *)
Definition get_close_matches (word : pystr) (possibilities : list pystr)
    (n : nat) (cutoff : Q) : option (list pystr) :=
  result ← close_loop word cutoff possibilities [];
  Some (snd <$> take n (merge_sort scored_ge result)).

(** *** Facts about [get_close_matches] *)

(** Occurrences of [e] in [l]. *)
Definition occurrences (e : N) (l : list N) : Z :=
  Z.of_nat (length (filter (λ x, x = e) l)).

Lemma occurrences_snoc e l x :
  occurrences e (l ++ [x])
  = (occurrences e l + if decide (x = e) then 1 else 0)%Z.
Proof.
  unfold occurrences. rewrite filter_app, length_app.
  rewrite filter_cons, filter_nil. case_decide; simpl; lia.
Qed.

Lemma occurrences_nonneg e l : (0 ≤ occurrences e l)%Z.
Proof. unfold occurrences. lia. Qed.

Lemma occurrences_app_le e l k : (occurrences e l ≤ occurrences e (l ++ k))%Z.
Proof. unfold occurrences. rewrite filter_app, length_app. lia. Qed.

Lemma fullbcount_lookup b e :
  default 0%Z (fullbcount b !! e) = occurrences e b.
Proof.
  unfold fullbcount.
  induction b as [|x b IH] using rev_ind; [done|].
  rewrite foldl_snoc, occurrences_snoc, lookup_insert.
  case_decide as Hx; simpl.
  - subst x. rewrite IH. lia.
  - rewrite IH. lia.
Qed.

(** On [a] against [a] every element of [a] counts as a match. *)
Lemma quick_loop_self a p s :
  a = p ++ s →
  (foldl (quick_step a) (∅, 0) p).2 = length p ∧
  ∀ e, default (occurrences e a) ((foldl (quick_step a) (∅, 0) p).1 !! e)
       = (occurrences e a - occurrences e p)%Z.
Proof.
  revert s. induction p as [|x p IH] using rev_ind; intros s Ha.
  { simpl. split; [done|]. intros e. rewrite lookup_empty. simpl.
    change (occurrences e []) with 0%Z. lia. }
  rewrite foldl_snoc.
  destruct (IH ([x] ++ s)) as [IH1 IH2]; [by rewrite Ha, <- (assoc_L (++))|].
  destruct (foldl _ _ p) as [avail matches]. simpl in *.
  assert (match avail !! x with
          | Some numb => numb
          | None => default 0%Z (fullbcount a !! x)
          end = (occurrences x a - occurrences x p)%Z) as Hnumb.
  { specialize (IH2 x). rewrite fullbcount_lookup.
    destruct (avail !! x); simpl in *; [done|].
    pose proof (occurrences_nonneg x p). lia. }
  rewrite Hnumb.
  assert (occurrences x p + 1 ≤ occurrences x a)%Z as Hle.
  { rewrite Ha. etrans; [|apply occurrences_app_le].
    rewrite occurrences_snoc. by rewrite decide_True. }
  split.
  - destruct (Z.ltb_spec 0 (occurrences x a - occurrences x p)); [|lia].
    rewrite length_app. simpl. lia.
  - intros e. rewrite occurrences_snoc, lookup_insert.
    case_decide as Hx.
    + subst e. simpl. lia.
    + rewrite IH2. lia.
Qed.

Lemma quick_ratio_self a : (quick_ratio a a == real_quick_ratio a a)%Q.
Proof.
  unfold quick_ratio, real_quick_ratio, quick_loop.
  destruct (quick_loop_self a a [] (eq_sym (app_nil_r a))) as [-> _].
  by rewrite Nat.min_id.
Qed.

Lemma real_quick_ratio_self a : (real_quick_ratio a a == 1)%Q.
Proof.
  unfold real_quick_ratio, calculate_ratio. rewrite Nat.min_id.
  destruct (Nat.eqb_spec (length a + length a) 0); [done|].
  unfold Qeq. simpl. lia.
Qed.

Lemma Qle_bool_of_one cutoff q :
  (cutoff <= 1)%Q → (q == 1)%Q → Qle_bool cutoff q = true.
Proof. intros Hc Hq. apply Qle_bool_iff. by rewrite Hq. Qed.

Lemma close_loop_spec word cutoff possibilities result :
  ∃ result', close_loop word cutoff possibilities result = Some result' ∧
    (∀ p, p ∈ result' → p ∈ result ∨ p.2 ∈ possibilities) ∧
    (∀ p, p ∈ result → p ∈ result') ∧
    ((cutoff <= 1)%Q → word ∈ possibilities →
     ∃ r, (r, word) ∈ result').
Proof.
  revert result.
  induction possibilities as [|x rest IH]; intros result; simpl.
  { exists result. split_and!; [done|by left|done|].
    by intros _ ?%elem_of_nil. }
  assert (∀ res,
            (∀ p, p ∈ res → p ∈ result ∨ p.2 ∈ x :: rest) →
            (∀ p, p ∈ result → p ∈ res) →
            ((cutoff <= 1)%Q → x = word → ∃ r, (r, word) ∈ res) →
            ∃ result', close_loop word cutoff rest res = Some result' ∧
              (∀ p, p ∈ result' → p ∈ result ∨ p.2 ∈ x :: rest) ∧
              (∀ p, p ∈ result → p ∈ result') ∧
              ((cutoff <= 1)%Q → word ∈ x :: rest →
               ∃ r, (r, word) ∈ result')) as Hstep.
  { intros res H1 H2 H3.
    destruct (IH res) as (result' & -> & I1 & I2 & I3).
    exists result'. split_and!; [done| | |].
    - intros p [Hp|Hp]%I1; [by apply H1|right; by right].
    - intros p Hp. by apply I2, H2.
    - intros Hc [->|Hw]%elem_of_cons; [|by apply I3].
      destruct (H3 Hc eq_refl) as [r Hr]. exists r. by apply I2. }
  destruct (ratio_range x word) as (r & Hr & _).
  destruct (Qle_bool cutoff (real_quick_ratio x word)
            && Qle_bool cutoff (quick_ratio x word)) eqn:E1.
  - rewrite Hr. simpl. destruct (Qle_bool cutoff r) eqn:E2.
    + apply Hstep.
      * intros p [Hp|Hp]%elem_of_app; [by left|].
        apply list_elem_of_singleton in Hp as ->. right. by left.
      * intros p Hp. apply elem_of_app. by left.
      * intros _ <-. exists r. apply elem_of_app. right.
        by apply list_elem_of_singleton.
    + apply Hstep; [by left|done|].
      intros Hc ->. destruct (ratio_refl word) as (q & Hq & Hq1).
      rewrite Hq in Hr. injection Hr as ->.
      by rewrite (Qle_bool_of_one cutoff r) in E2.
  - apply Hstep; [by left|done|].
    intros Hc ->. apply andb_false_iff in E1 as [E1|E1].
    + by rewrite (Qle_bool_of_one cutoff _ Hc (real_quick_ratio_self word))
        in E1.
    + rewrite (Qle_bool_of_one cutoff (quick_ratio word word)) in E1;
        [done|done|].
      rewrite quick_ratio_self. apply real_quick_ratio_self.
Qed.

(** [get_close_matches] returns at most [n] of the possibilities, and at
    least one when [word] itself is among them. *)
Lemma get_close_matches_spec word possibilities n cutoff :
  ∃ close, get_close_matches word possibilities n cutoff = Some close ∧
    length close ≤ n ∧ (∀ x, x ∈ close → x ∈ possibilities) ∧
    (possibilities = [] → close = []) ∧
    (0 < n → (cutoff <= 1)%Q → word ∈ possibilities → close ≠ []).
Proof.
  unfold get_close_matches.
  destruct (close_loop_spec word cutoff possibilities [])
    as (result & -> & H1 & _ & H3). simpl.
  eexists. split; [done|]. split_and!.
  - rewrite length_fmap, length_take. lia.
  - intros x (p & -> & Hp)%list_elem_of_fmap.
    apply elem_of_take in Hp as (i & Hp & _).
    apply list_elem_of_lookup_2 in Hp.
    rewrite merge_sort_Permutation in Hp.
    destruct (H1 p Hp) as [?%elem_of_nil|?]; done.
  - intros ->. destruct result as [|p result]; [by destruct n|].
    destruct (H1 p) as [?%elem_of_nil|?%elem_of_nil]; [by left|done..].
  - intros Hn Hc Hw Hnil. destruct (H3 Hc Hw) as [r Hr].
    apply fmap_nil_inv in Hnil.
    assert (length (merge_sort scored_ge result) = length result) as Hlen.
    { by rewrite merge_sort_Permutation. }
    apply (f_equal length) in Hnil. rewrite length_take in Hnil.
    destruct result; [by apply elem_of_nil in Hr|]. simpl in *. lia.
Qed.

End DifflibClose.

(** ** Regular expressions of [re], as far as [EMAIL_RE] uses them

    A pattern is matched by derivatives.  [re] backtracks instead, but both
    decide whether some way to match exists. *)

Module Re.

Inductive regex :=
  | Void                      (* matches nothing *)
  | Eps                       (* the empty pattern *)
  | Class (p : N → bool)      (* one character of a class *)
  | Cat (r s : regex)
  | Alt (r s : regex)
  | Star (r : regex).

(** [r+] and [r{2,}] *)
Definition Plus (r : regex) : regex := Cat r (Star r).
Definition AtLeast2 (r : regex) : regex := Cat r (Cat r (Star r)).
Definition Chr (c : N) : regex := Class (N.eqb c).

Fixpoint nullable (r : regex) : bool :=
  match r with
  | Void => false
  | Eps => true
  | Class _ => false
  | Cat r s => nullable r && nullable s
  | Alt r s => nullable r || nullable s
  | Star _ => true
  end.

Fixpoint deriv (c : N) (r : regex) : regex :=
  match r with
  | Void => Void
  | Eps => Void
  | Class p => if p c then Eps else Void
  | Cat r s =>
      if nullable r then Alt (Cat (deriv c r) s) (deriv c s)
      else Cat (deriv c r) s
  | Alt r s => Alt (deriv c r) (deriv c s)
  | Star r => Cat (deriv c r) (Star r)
  end.

(** The whole of [s] matches [r]. *)
Fixpoint matches (r : regex) (s : pystr) : bool :=
  match s with
  | [] => nullable r
  | c :: s' => matches (deriv c r) s'
  end.

(** [re.compile("^" r "$").match(s)] is not [None]: without [re.MULTILINE],
    [^] holds at the start only, and [$] at the end of [s] and also just
    before a newline that ends [s]. *)
Definition match_anchored (r : regex) (s : pystr) : bool :=
  matches r s
  || match last s with
     | Some 10%N => matches r (removelast s)
     | _ => false
     end.

(** The words of a pattern. *)
Inductive lang : regex → list N → Prop :=
  | lang_eps : lang Eps []
  | lang_class p c : p c = true → lang (Class p) [c]
  | lang_cat r s u v : lang r u → lang s v → lang (Cat r s) (u ++ v)
  | lang_alt_l r s u : lang r u → lang (Alt r s) u
  | lang_alt_r r s u : lang s u → lang (Alt r s) u
  | lang_star_nil r : lang (Star r) []
  | lang_star_cons r u v : lang r u → lang (Star r) v → lang (Star r) (u ++ v).

Lemma lang_void_inv w : ¬ lang Void w.
Proof. inversion 1. Qed.

Lemma lang_eps_inv w : lang Eps w → w = [].
Proof. by inversion 1. Qed.

Lemma lang_class_inv p w : lang (Class p) w → ∃ c, w = [c] ∧ p c = true.
Proof. inversion 1; subst. by eexists. Qed.

Lemma lang_cat_inv r s w :
  lang (Cat r s) w → ∃ u v, w = u ++ v ∧ lang r u ∧ lang s v.
Proof. inversion 1; subst. by eexists _, _. Qed.

Lemma lang_alt_inv r s w : lang (Alt r s) w → lang r w ∨ lang s w.
Proof. inversion 1; subst; auto. Qed.

Lemma nullable_spec r : nullable r = true ↔ lang r [].
Proof.
  induction r as [| |p|r IHr s IHs|r IHr s IHs|r IHr]; simpl.
  - split; [done|]. by intros ?%lang_void_inv.
  - split; [constructor|done].
  - split; [done|]. by intros (c & ? & _)%lang_class_inv.
  - rewrite andb_true_iff, IHr, IHs. split.
    + intros [Hr Hs]. by apply (lang_cat r s [] []).
    + intros (u & v & Huv & Hu & Hv)%lang_cat_inv.
      symmetry in Huv. apply app_eq_nil in Huv as [-> ->]. done.
  - rewrite orb_true_iff, IHr, IHs. split.
    + intros [Hr|Hs]; [by apply lang_alt_l|by apply lang_alt_r].
    + apply lang_alt_inv.
  - split; [constructor|done].
Qed.

(** A word of [Star r] that starts with [c] starts with a word of [r] that
    starts with [c]. *)
Lemma lang_star_cons_inv r w :
  lang (Star r) w → ∀ c s, w = c :: s →
  ∃ u v, s = u ++ v ∧ lang r (c :: u) ∧ lang (Star r) v.
Proof.
  intros Hw. remember (Star r) as sr eqn:E.
  induction Hw as [| | | | | |r' u v Hu _ Hv IHv]; try done.
  injection E as ->. intros c s Hcs.
  destruct u as [|d u]; simpl in Hcs.
  - by apply IHv.
  - injection Hcs as -> <-. by exists u, v.
Qed.

Lemma deriv_spec c r s : lang (deriv c r) s ↔ lang r (c :: s).
Proof.
  revert s.
  induction r as [| |p|r IHr r' IHr'|r IHr r' IHr'|r IHr]; intros s; simpl.
  - split; by intros ?%lang_void_inv.
  - split; [by intros ?%lang_void_inv|by intros ?%lang_eps_inv].
  - destruct (p c) eqn:E; split.
    + intros ->%lang_eps_inv. by constructor.
    + intros (d & [= -> ->] & _)%lang_class_inv. constructor.
    + by intros ?%lang_void_inv.
    + intros (d & [= -> ->] & ?)%lang_class_inv. congruence.
  - assert (lang (Cat (deriv c r) r') s ↔
            ∃ u v, s = u ++ v ∧ lang r (c :: u) ∧ lang r' v) as Hcat.
    { split.
      - intros (u & v & -> & Hu & Hv)%lang_cat_inv.
        exists u, v. by rewrite <- IHr.
      - intros (u & v & -> & Hu & Hv). constructor; [by apply IHr|done]. }
    assert (lang (Cat r r') (c :: s) ↔
            (∃ u v, s = u ++ v ∧ lang r (c :: u) ∧ lang r' v)
            ∨ lang r [] ∧ lang r' (c :: s)) as Hfull.
    { split.
      - intros (u & v & Huv & Hu & Hv)%lang_cat_inv.
        destruct u as [|d u]; simpl in Huv.
        + right. by subst.
        + injection Huv as -> ->. left. by exists u, v.
      - intros [(u & v & -> & Hu & Hv)|[Hu Hv]].
        + by apply (lang_cat r r' (c :: u) v).
        + by apply (lang_cat r r' [] (c :: s)). }
    rewrite Hfull. destruct (nullable r) eqn:En.
    + apply nullable_spec in En. split.
      * intros [Hl|Hr]%lang_alt_inv;
          [left; by apply Hcat|right; by rewrite <- IHr'].
      * intros [Hl|[_ Hr]];
          [apply lang_alt_l; by apply Hcat|apply lang_alt_r; by apply IHr'].
    + rewrite Hcat. split; [by left|].
      intros [Hl|[Hr _]]; [done|].
      apply nullable_spec in Hr. congruence.
  - split.
    + intros [Hl|Hr]%lang_alt_inv;
        [apply lang_alt_l; by apply IHr|apply lang_alt_r; by apply IHr'].
    + intros [Hl|Hr]%lang_alt_inv;
        [apply lang_alt_l; by apply IHr|apply lang_alt_r; by apply IHr'].
  - split.
    + intros (u & v & -> & Hu & Hv)%lang_cat_inv.
      apply (lang_star_cons r (c :: u) v); [by apply IHr|done].
    + intros Hs.
      destruct (lang_star_cons_inv r _ Hs c s eq_refl) as (u & v & -> & Hu & Hv).
      constructor; [by apply IHr|done].
Qed.

(** The matcher decides the language of the pattern. *)
Lemma matches_spec r s : matches r s = true ↔ lang r s.
Proof.
  revert r. induction s as [|c s IH]; intros r; simpl.
  - apply nullable_spec.
  - by rewrite IH, deriv_spec.
Qed.

Lemma lang_cat_iff r s w :
  lang (Cat r s) w ↔ ∃ u v, w = u ++ v ∧ lang r u ∧ lang s v.
Proof.
  split; [apply lang_cat_inv|].
  intros (u & v & -> & Hu & Hv). by constructor.
Qed.

Lemma lang_chr c w : lang (Chr c) w ↔ w = [c].
Proof.
  unfold Chr. split.
  - intros (d & -> & Hd)%lang_class_inv. by apply N.eqb_eq in Hd as ->.
  - intros ->. constructor. apply N.eqb_refl.
Qed.

Lemma lang_class_iff p w : lang (Class p) w ↔ ∃ c, w = [c] ∧ p c = true.
Proof.
  split; [apply lang_class_inv|]. intros (c & -> & Hc). by constructor.
Qed.

Lemma lang_star_class p w :
  lang (Star (Class p)) w ↔ Forall (λ c, p c = true) w.
Proof.
  split.
  - intros Hw. remember (Star (Class p)) as sr eqn:E.
    induction Hw as [| | | | | |r u v Hu _ Hv IHv]; try done.
    injection E as ->.
    apply lang_class_inv in Hu as (c & -> & Hc).
    constructor; [done|by apply IHv].
  - induction 1 as [|c w Hc _ IH]; [constructor|].
    apply (lang_star_cons _ [c] w); [by constructor|done].
Qed.

Lemma lang_plus_class p w :
  lang (Plus (Class p)) w ↔ w ≠ [] ∧ Forall (λ c, p c = true) w.
Proof.
  unfold Plus. rewrite lang_cat_iff. split.
  - intros (u & v & -> & (c & -> & Hc)%lang_class_inv & Hv%lang_star_class).
    split; [done|by constructor].
  - intros [Hne Hw]. destruct Hw as [|c w Hc Hw]; [done|].
    exists [c], w. split; [done|].
    split; [by constructor|by apply lang_star_class].
Qed.

Lemma lang_atleast2_class p w :
  lang (AtLeast2 (Class p)) w ↔ 2 ≤ length w ∧ Forall (λ c, p c = true) w.
Proof.
  unfold AtLeast2. rewrite lang_cat_iff. split.
  - intros (u & v & -> & (c & -> & Hc)%lang_class_inv & Hv).
    apply lang_cat_iff in Hv
      as (u' & v' & -> & (d & -> & Hd)%lang_class_inv & Hv%lang_star_class).
    simpl. split; [lia|by repeat constructor].
  - intros [Hlen Hw].
    destruct Hw as [|c w Hc Hw]; [simpl in Hlen; lia|].
    destruct Hw as [|d w Hd Hw]; [simpl in Hlen; lia|].
    exists [c], (d :: w). split; [done|]. split; [by constructor|].
    apply lang_cat_iff. exists [d], w. split; [done|].
    split; [by constructor|by apply lang_star_class].
Qed.

Lemma match_anchored_spec r s :
  match_anchored r s = true ↔
  lang r s ∨ ∃ s', s = s' ++ [10%N] ∧ lang r s'.
Proof.
  unfold match_anchored. rewrite orb_true_iff, matches_spec.
  apply or_iff_compat_l. split.
  - destruct (last s) as [c|] eqn:E; [|done].
    apply last_Some in E as [s' ->]. intros Hm.
    assert (c = 10%N) as -> by (by repeat (case_match; try done)).
    rewrite removelast_last, matches_spec in Hm. by exists s'.
  - intros (s' & -> & Hs'). rewrite last_snoc, removelast_last.
    by apply matches_spec.
Qed.

End Re.

(** ** [contact_manager.py] *)

Module ContactManager.

Definition CSV_FIELDS : list pystr :=
  [py "name"; py "phone"; py "email"; py "tags"; py "favorite"].

(** A contact as [read_contacts] builds it: four [str] fields and the
    [bool] that replaces the text of [favorite]. *)
Record contact := {
  name : pystr;
  phone : pystr;
  email : pystr;
  tags : pystr;
  favorite : bool;
}.

(** A row as [csv.DictReader] yields it: a dict from the header's column
    names to the cell, [None] for a cell the line is too short to have. *)
Abbreviation csvrow := (gmap pystr (option pystr)) (only parsing).

(** A reading of [datetime.now()], by its two renderings:
    [strftime("%Y%m%d")] and [strftime("%H%M%S")]. *)
Record datetime := { ymd : pystr; hms : pystr }.

(** [strftime("%Y%m%d_%H%M%S")] *)
Definition ymd_hms (now : datetime) : pystr := ymd now ++ py "_" ++ hms now.

(** The files the program owns.  File operations succeed: a failing disk
    is outside the model, and so is [error_log.txt].  The [csv] module is
    taken at the level of rows: what [csv.DictWriter] writes for a dict of
    five strings, [csv.DictReader] reads back as that dict. *)
Record world := {
  (** [contacts.csv]: [None] when the file does not exist, else the rows
      under its header line. *)
  csv_file : option (list csvrow);
  (** [.prev_contacts_snapshot.json]: [None] when absent, else the JSON
      array [snapshot_before_write] dumped. *)
  prev_snapshot : option (list contact);
  (** The directory [backups]: file name to content. *)
  backups : gmap pystr (list csvrow);
}.

Definition set_csv_file (v : option (list csvrow)) (w : world) : world :=
  {| csv_file := v; prev_snapshot := prev_snapshot w; backups := backups w |}.
Definition set_prev_snapshot (v : option (list contact)) (w : world) : world :=
  {| csv_file := csv_file w; prev_snapshot := v; backups := backups w |}.
Definition set_backups (v : gmap pystr (list csvrow)) (w : world) : world :=
  {| csv_file := csv_file w; prev_snapshot := prev_snapshot w; backups := v |}.

(** The class [[^@\s]] of [EMAIL_RE] *)
Definition not_at_space (c : N) : bool := negb (c =? 64)%N && negb (isspace c).

(** The class [[a-zA-Z0-9]] of [EMAIL_RE] *)
Definition alnum (c : N) : bool :=
  ((97 <=? c) && (c <=? 122) || (65 <=? c) && (c <=? 90)
   || (48 <=? c) && (c <=? 57))%N.

(** [EMAIL_RE], between its [^] and its [$] *)
Definition EMAIL_RE : Re.regex :=
  Re.Cat (Re.Plus (Re.Class not_at_space))
    (Re.Cat (Re.Chr 64)
       (Re.Cat (Re.Plus (Re.Class not_at_space))
          (Re.Cat (Re.Chr 46) (Re.AtLeast2 (Re.Class alnum))))).

(** [is_valid_email] *)
Definition is_valid_email (email : pystr) : bool :=
  Re.match_anchored EMAIL_RE email.

(** Truth value of a [str]: non-empty. *)
Definition truthy (s : pystr) : bool :=
  match s with [] => false | _ :: _ => true end.

(** What [undo_last_write] tells the user: "Undo successful: previous
    contacts restored." or "No previous snapshot available to undo." *)
Inductive undo_result := UndoSuccessful | NoSnapshot.

(** The state of the scan of [merge_duplicates]: its three variables, the
    lines still to be typed at the prompt, the "Possible duplicate" lines
    printed so far (both names and the similarity) and the number of calls
    of [name_similarity]. *)
Record scan := {
  contacts : list contact;
  used : gset nat;
  merged_any : bool;
  stdin : list pystr;
  prompts : list (pystr * pystr * Q);
  comparisons : nat;
}.

Inductive exn := EOFError | IndexError.

(** A loop body ends normally, raises, or the model of [difflib] runs out
    of fuel (it never does: [Difflib.ratio_range]). *)
Inductive result :=
  | Ok (st : scan)
  | Raise (e : exn) (st : scan)
  | NoFuel.

Definition bind (r : result) (f : scan → result) : result :=
  match r with
  | Ok st => f st
  | Raise e st => Raise e st
  | NoFuel => NoFuel
  end.

(** [for x in xs: body], with the exceptions of [body] ending the loop. *)
Fixpoint for_each {A} (xs : list A) (body : A → scan → result) (st : scan)
    : result :=
  match xs with
  | [] => Ok st
  | x :: xs' => bind (body x st) (for_each xs' body)
  end.

(** What [merge_duplicates] tells the user. *)
Inductive merge_outcome :=
  | NotEnoughContacts   (* "Not enough contacts to check duplicates." *)
  | NoMergesPerformed   (* "No merges performed." *)
  | MergedAndSaved      (* "Duplicates merged and saved." *)
  | MergeFailed (e : exn). (* "Duplicate merge failed." *)

Record report := {
  outcome : merge_outcome;
  scan_end : scan;
  world_end : world;
}.

Section Program.
Context `{CaseTables}.

(** [snapshot_before_write] *)
Definition snapshot_before_write (contacts : list contact) (w : world)
    : world :=
  set_prev_snapshot (Some contacts) w.

(** [load_prev_snapshot] *)
Definition load_prev_snapshot (w : world) : option (list contact) :=
  prev_snapshot w.

(** [row.get(k, "").strip() if row.get(k, "") is not None else ""] *)
Definition row_field (row : csvrow) (k : pystr) : pystr :=
  match row !! k with
  | Some (Some v) => strip v
  | Some None => []
  | None => strip []
  end.

(** [text.strip().lower() in ("1", "true", "yes", "y")] *)
Definition favorite_of_text (text : pystr) : bool :=
  bool_decide (lower (strip text) ∈ [py "1"; py "true"; py "yes"; py "y"]).

(** The body of the [for row in reader] loop of [read_contacts]: the
    contact appended, if any. *)
Definition read_row (row : csvrow) : option contact :=
  let name := row_field row (py "name") in
  let phone := row_field row (py "phone") in
  let email := row_field row (py "email") in
  let tags := row_field row (py "tags") in
  let favorite := row_field row (py "favorite") in
  if truthy name then
    Some {| name := name; phone := phone; email := email; tags := tags;
            favorite := favorite_of_text favorite |}
  else None.

(** [read_contacts]: a missing file gives the empty list.  (A reader that
    fails after some rows leaves the contacts of those rows: the result
    for the file cut there.) *)
Definition read_contacts (w : world) : list contact :=
  match csv_file w with
  | None => []
  | Some rows => omap read_row rows
  end.

(** The [row] dict [write_contacts] hands to [writer.writerow]. *)
Definition row_of_contact (c : contact) : csvrow :=
  <[py "name" := Some (name c)]>
  (<[py "phone" := Some (phone c)]>
  (<[py "email" := Some (email c)]>
  (<[py "tags" := Some (tags c)]>
  (<[py "favorite" := Some (if favorite c then py "1" else py "0")]> ∅)))).

Definition backup_name (now : datetime) : pystr :=
  py "contacts_backup_" ++ ymd_hms now ++ py ".csv".

(** The test on [fname] in the scan of the backup directory. *)
Definition is_backup_for (today_str fname : pystr) : bool :=
  startswith fname (py "contacts_backup_" ++ today_str ++ py "_")
  && endswith fname (py ".csv").

(** The scan of [os.listdir(BACKUP_DIR)] in [write_contacts]. *)
Definition existing_for_today (today_str : pystr) (w : world) : bool :=
  existsb (is_backup_for today_str) (elements (dom (backups w))).

(** [write_contacts(contacts)]; [now1] and [now2] are its two readings
    of the clock. *)
Definition write_contacts (now1 now2 : datetime) (contacts : list contact)
    (w : world) : world :=
  let old := read_contacts w in
  let w := snapshot_before_write old w in
  let today_str := ymd now1 in
  let w :=
    match csv_file w with
    | Some rows =>
        if negb (existing_for_today today_str w)
        then set_backups (<[backup_name now2 := rows]> (backups w)) w
        else w
    | None => w
    end in
  set_csv_file (Some (row_of_contact <$> contacts)) w.

(** [create_backup]; [now] is its reading of the clock. *)
Definition create_backup (now : datetime) (w : world) : world :=
  match csv_file w with
  | None => w
  | Some rows => set_backups (<[backup_name now := rows]> (backups w)) w
  end.

(** [undo_last_write]: [not prev] holds of [None] and of the empty
    list. *)
Definition undo_last_write (now1 now2 : datetime) (w : world)
    : undo_result * world :=
  match load_prev_snapshot w with
  | None | Some [] => (NoSnapshot, w)
  | Some prev =>
      let w := write_contacts now1 now2 prev w in
      (UndoSuccessful, set_prev_snapshot None w)
  end.

(** [name_similarity] *)
Definition name_similarity (a b : pystr) : option Q :=
  Difflib.ratio (lower a) (lower b).

(** The merge of [src] into [target] in [merge_duplicates]. *)
Definition merged_tags (target src : contact) : gset pystr :=
  list_to_set
    (filter (λ t, truthy t = true)
            (strip <$> split 44 (tags target ++ py "," ++ tags src))).

Definition merge_into (target src : contact) : contact :=
  {| name := name target;
     phone := if negb (truthy (phone target)) && truthy (phone src)
              then phone src else phone target;
     email := if negb (truthy (email target)) && truthy (email src)
              then email src else email target;
     tags := join (py ",") (sorted (merged_tags target src));
     favorite := favorite target || favorite src |}.

(** One turn of the inner loop of [merge_duplicates], for the pair
    [(i, j)]; [c] of the source is [contacts[i]]. *)
Definition visit_pair (auto_threshold : Q) (i j : nat) (st : scan)
    : result :=
  if decide (j ∈ used st) then Ok st
  else
    match contacts st !! i, contacts st !! j with
    | Some c, Some src =>
        match name_similarity (name c) (name src) with
        | None => NoFuel
        | Some sim =>
            let st :=
              {| contacts := contacts st; used := used st;
                 merged_any := merged_any st; stdin := stdin st;
                 prompts := prompts st;
                 comparisons := S (comparisons st) |} in
            if Qle_bool auto_threshold sim then
              (* print("Possible duplicate: ..."); input(...) *)
              match stdin st with
              | [] => Raise EOFError st
              | line :: rest =>
                  let action := upper (strip line) in
                  let shown := prompts st ++ [(name c, name src, sim)] in
                  if bool_decide (action = py "M")
                     || bool_decide (action = py "A")
                  then
                    let target := merge_into c src in
                    let st :=
                      {| contacts := <[i := target]> (contacts st);
                         used := {[j]} ∪ used st;
                         merged_any := true;
                         stdin := rest;
                         prompts := shown;
                         comparisons := comparisons st |} in
                    if bool_decide (action = py "A")
                    then Ok st (* continue *)
                    else Ok st
                  else
                    (* continue *)
                    Ok {| contacts := contacts st; used := used st;
                          merged_any := merged_any st; stdin := rest;
                          prompts := shown;
                          comparisons := comparisons st |}
              end
            else Ok st
        end
    | _, _ => Raise IndexError st
    end.

(** [for j in range(i + 1, n)] *)
Definition inner_loop (auto_threshold : Q) (n i : nat) : scan → result :=
  for_each (seq (i + 1) (n - (i + 1))) (visit_pair auto_threshold i).

(** The body of [for i, c in enumerate(contacts)] *)
Definition visit_target (auto_threshold : Q) (n i : nat) (st : scan)
    : result :=
  if decide (i ∈ used st) then Ok st
  else inner_loop auto_threshold n i st.

Definition scan_pairs (auto_threshold : Q) (n : nat) : scan → result :=
  for_each (seq 0 n) (visit_target auto_threshold n).

(** The indices [i] of [range(len(contacts))] with [i not in used]. *)
Definition kept_indices (st : scan) : list nat :=
  filter (λ i, i ∉ used st) (seq 0 (length (contacts st))).

(** [[contacts[i] for i in range(len(contacts)) if i not in used]] *)
Definition new_contacts (st : scan) : list contact :=
  omap (λ i, contacts st !! i) (kept_indices st).

Definition scan_start (contacts : list contact) (lines : list pystr)
    : scan :=
  {| contacts := contacts; used := ∅; merged_any := false;
     stdin := lines; prompts := []; comparisons := 0 |}.

(** [merge_duplicates(auto_threshold)]: [lines] is what the user types,
    [now1] and [now2] are the clock readings of its [write_contacts].
    [None] only for a model out of fuel. *)
Definition merge_duplicates (now1 now2 : datetime) (auto_threshold : Q)
    (lines : list pystr) (w : world) : option report :=
  let contacts := read_contacts w in
  let n := length contacts in
  let st0 := scan_start contacts lines in
  if n <? 2 then
    Some {| outcome := NotEnoughContacts; scan_end := st0; world_end := w |}
  else
    match scan_pairs auto_threshold n st0 with
    | Ok st =>
        if merged_any st then
          Some {| outcome := MergedAndSaved; scan_end := st;
                  world_end := write_contacts now1 now2 (new_contacts st) w |}
        else
          Some {| outcome := NoMergesPerformed; scan_end := st;
                  world_end := w |}
    | Raise e st =>
        Some {| outcome := MergeFailed e; scan_end := st; world_end := w |}
    | NoFuel => None
    end.
End Program.

(** *** Runs on concrete data (ASCII text, so any case tables agree) *)

Definition mk (n p e t : string) (f : bool) : contact :=
  {| name := py n; phone := py p; email := py e; tags := py t; favorite := f |}.

Definition world_of (cs : list contact) : world :=
  {| csv_file := Some (row_of_contact <$> cs); prev_snapshot := None;
     backups := ∅ |}.

Definition noon : datetime := {| ymd := py "20250101"; hms := py "120000" |}.

Definition jon := mk "Jon Smith" "" "" "work" false.
Definition jonn := mk "Jonn Smith" "5551234567" "" "vip" false.

(** *** Reading back what was written *)

(** The data-model invariants of a contact: a name, and no field with
    surrounding whitespace. *)
Definition valid (c : contact) : Prop :=
  name c ≠ [] ∧ strip (name c) = name c ∧ strip (phone c) = phone c ∧
  strip (email c) = email c ∧ strip (tags c) = tags c.

Section RoundTrip.
Context `{CaseTables}.

Lemma favorite_text_roundtrip (b : bool) :
  favorite_of_text (strip (if b then py "1" else py "0")) = b.
Proof.
  unfold favorite_of_text.
  destruct b; rewrite lower_ascii by (by repeat constructor); by vm_compute.
Qed.

Lemma truthy_true s : truthy s = true ↔ s ≠ [].
Proof. by destruct s. Qed.

Lemma read_row_of_contact c : valid c → read_row (row_of_contact c) = Some c.
Proof.
  intros (Hn & Hsn & Hsp & Hse & Hst).
  unfold read_row, row_field, row_of_contact.
  repeat (rewrite lookup_insert_eq || rewrite lookup_insert_ne by by vm_compute).
  rewrite Hsn, Hsp, Hse, Hst, favorite_text_roundtrip.
  apply truthy_true in Hn as ->. by destruct c.
Qed.

Lemma read_rows_of_contacts cs :
  Forall valid cs → omap read_row (row_of_contact <$> cs) = cs.
Proof.
  induction 1 as [|c cs Hc _ IH]; csimpl; [done|].
  by rewrite read_row_of_contact, IH.
Qed.

Lemma read_row_valid row c : read_row row = Some c → valid c.
Proof.
  unfold read_row.
  destruct (truthy (row_field row (py "name"))) eqn:E; [|done].
  intros [= <-]. apply truthy_true in E.
  assert (∀ k, strip (row_field row k) = row_field row k) as Hs.
  { intros k. unfold row_field.
    destruct (row !! k) as [[v|]|]; [apply strip_idemp|done..]. }
  unfold valid. simpl. by rewrite !Hs.
Qed.

Lemma read_contacts_valid w : Forall valid (read_contacts w).
Proof.
  unfold read_contacts. destruct (csv_file w) as [rows|]; [|done].
  apply Forall_forall. intros c Hc.
  apply list_elem_of_omap in Hc as (row & _ & Hrow).
  by eapply read_row_valid.
Qed.

Lemma read_after_write now1 now2 cs w :
  Forall valid cs → read_contacts (write_contacts now1 now2 cs w) = cs.
Proof. intros Hcs. unfold read_contacts. simpl. by apply read_rows_of_contacts. Qed.

Lemma prev_snapshot_write now1 now2 cs w :
  prev_snapshot (write_contacts now1 now2 cs w) = Some (read_contacts w).
Proof.
  unfold write_contacts. simpl.
  destruct (csv_file w); [|done]. by destruct (negb _).
Qed.

(** After two writes, [undo_last_write] brings back what [read_contacts]
    gave before the second one, provided that was not the empty list, and
    leaves no snapshot behind. *)
Lemma undo_restores_previous now1 now2 now3 now4 now5 now6 cs1 cs2 w0 :
  let w1 := write_contacts now1 now2 cs1 w0 in
  let w2 := write_contacts now3 now4 cs2 w1 in
  read_contacts w1 ≠ [] →
  ∃ w3, undo_last_write now5 now6 w2 = (UndoSuccessful, w3) ∧
        read_contacts w3 = read_contacts w1 ∧
        prev_snapshot w3 = None.
Proof.
  intros w1 w2 Hne. unfold undo_last_write, load_prev_snapshot.
  rewrite (prev_snapshot_write now3 now4 cs2 w1 : prev_snapshot w2 = _).
  destruct (read_contacts w1) as [|c cs] eqn:E; [done|].
  eexists. split; [done|]. split; [|done].
  rewrite <- E.
  change (read_contacts (write_contacts now5 now6 (read_contacts w1) w2)
          = read_contacts w1).
  apply read_after_write, read_contacts_valid.
Qed.

Lemma undo_without_snapshot now1 now2 w :
  prev_snapshot w = None → undo_last_write now1 now2 w = (NoSnapshot, w).
Proof. intros Hw. unfold undo_last_write, load_prev_snapshot. by rewrite Hw. Qed.

End RoundTrip.

(** *** The claims on persistence and undo *)

Definition alice : contact := mk "Alice" "5550001" "" "" false.
Definition bob : contact := mk "Bob" "5550002" "" "" false.

(** The tags of a contact, as the set the data model takes them for. *)
Definition tag_set (text : list N) : gset (list N) :=
  list_to_set (filter (λ t, truthy t = true) (strip <$> split 44 text)).

(** Equality of contacts up to the order (and repetition) of tags. *)
Definition same_up_to_tags (c d : contact) : Prop :=
  name c = name d ∧ phone c = phone d ∧ email c = email d ∧
  tag_set (tags c) = tag_set (tags d) ∧ favorite c = favorite d.



(** The name cell of a row is missing, [None], empty or all whitespace. *)
Definition blank_name (row : gmap (list N) (option (list N))) : Prop :=
  match row !! py "name" with
  | Some (Some v) => Forall (λ c, isspace c = true) v
  | _ => True
  end.

(** C10.  Whatever [contacts.csv] holds, every contact that
    [read_contacts] returns has a non-empty name: a row whose name cell is
    missing, empty or whitespace-only yields no contact (and no error). *)
Theorem loaded_names_nonempty `{CaseTables} w :
  Forall (λ c, name c ≠ []) (read_contacts w) ∧
  (∀ row, blank_name row → read_row row = None).
Proof.
  split.
  - eapply Forall_impl; [apply read_contacts_valid|]. by intros c [? _].
  - intros row Hrow. unfold read_row, row_field, blank_name in *.
    destruct (row !! py "name") as [[v|]|]; [|done..].
    by rewrite strip_spaces.
Qed.

Definition blank_row : gmap (list N) (option (list N)) :=
  <[py "name" := Some (py "  ")]> (<[py "phone" := Some (py "5550003")]> ∅).

Lemma loaded_names_nonempty_witness :
  blank_name blank_row ∧ read_row blank_row = None.
Proof.
  assert (blank_name blank_row) as Hb.
  { unfold blank_name. vm_compute. by repeat constructor. }
  split; [exact Hb|].
  exact (proj2 (loaded_names_nonempty (world_of [])) blank_row Hb).
Defined.

(** C9.  When the snapshot file holds the empty list, which is what a
    write leaves when it started from zero contacts, [undo_last_write]
    says that no snapshot is available and changes nothing, as it does
    when there is no snapshot file. *)
Theorem undo_empty_snapshot `{CaseTables} now1 now2 w :
  (prev_snapshot w = Some [] →
   undo_last_write now1 now2 w = (NoSnapshot, w)) ∧
  (prev_snapshot w = None →
   undo_last_write now1 now2 w = (NoSnapshot, w)) ∧
  (∀ now3 now4 cs,
     read_contacts w = [] →
     undo_last_write now1 now2 (write_contacts now3 now4 cs w)
     = (NoSnapshot, write_contacts now3 now4 cs w)).
Proof.
  split_and!.
  - intros Hw. unfold undo_last_write, load_prev_snapshot. by rewrite Hw.
  - apply undo_without_snapshot.
  - intros now3 now4 cs Hw. unfold undo_last_write, load_prev_snapshot.
    by rewrite prev_snapshot_write, Hw.
Qed.

Lemma undo_empty_snapshot_witness :
  read_contacts (world_of []) = [] ∧
  undo_last_write noon noon (write_contacts noon noon [bob] (world_of []))
  = (NoSnapshot, write_contacts noon noon [bob] (world_of [])).
Proof.
  assert (read_contacts (world_of []) = []) as He by reflexivity.
  split; [exact He|].
  exact (proj2 (proj2 (undo_empty_snapshot noon noon (world_of [])))
           noon noon [bob] He).
Defined.

(** C3, at the input where the code departs from it.  The book holds
    Alice; the first write empties it, the second one adds Bob.  The state
    before the second write is the empty book, yet [undo_last_write]
    answers that there is no snapshot and leaves Bob in place.  (For a
    non-empty previous state the claim holds: [undo_restores_previous],
    [undo_without_snapshot].) *)
Theorem undo_to_empty_book_refused :
  let w1 := write_contacts noon noon [] (world_of [alice]) in
  let w2 := write_contacts noon noon [bob] w1 in
  read_contacts w1 = [] ∧ prev_snapshot w2 = Some [] ∧
  undo_last_write noon noon w2 = (NoSnapshot, w2) ∧
  read_contacts w2 = [bob].
Proof. by vm_compute. Qed.

(** C8.  With fewer than two contacts in the file, [merge_duplicates]
    stops before its scan: no similarity is computed, no prompt is shown,
    no line of input is consumed, nothing is merged and the files are left
    as they were. *)
Theorem merge_duplicates_needs_two `{CaseTables} now1 now2 thr lines w :
  length (read_contacts w) < 2 →
  ∃ r, merge_duplicates now1 now2 thr lines w = Some r ∧
       outcome r = NotEnoughContacts ∧ world_end r = w ∧
       comparisons (scan_end r) = 0 ∧ prompts (scan_end r) = [] ∧
       stdin (scan_end r) = lines ∧ used (scan_end r) = ∅ ∧
       merged_any (scan_end r) = false ∧
       new_contacts (scan_end r) = read_contacts w.
Proof.
  intros Hn. unfold merge_duplicates.
  destruct (Nat.ltb_spec (length (read_contacts w)) 2); [|lia].
  eexists. split; [done|]. simpl. split_and!; try done.
  unfold new_contacts, kept_indices. simpl.
  destruct (read_contacts w) as [|c [|d cs]]; simpl in *; [done|done|lia].
Qed.

Lemma merge_duplicates_needs_two_witness :
  length (read_contacts (world_of [alice])) < 2 ∧
  ∃ r, merge_duplicates noon noon (9 # 10) [py "M"] (world_of [alice])
       = Some r ∧
       outcome r = NotEnoughContacts ∧ world_end r = world_of [alice] ∧
       comparisons (scan_end r) = 0 ∧ prompts (scan_end r) = [] ∧
       stdin (scan_end r) = [py "M"] ∧ used (scan_end r) = ∅ ∧
       merged_any (scan_end r) = false ∧
       new_contacts (scan_end r) = read_contacts (world_of [alice]).
Proof.
  assert (length (read_contacts (world_of [alice])) < 2) as Hn.
  { vm_compute. lia. }
  split; [exact Hn|].
  exact (merge_duplicates_needs_two noon noon (9 # 10) [py "M"]
           (world_of [alice]) Hn).
Defined.

(** *** Backups *)

(** A persisted write: its two clock readings and the contacts written. *)
Definition write_op : Type := datetime * datetime * list contact.

Definition writes `{CaseTables} (ops : list write_op) (w : world) : world :=
  foldl (λ w '(now1, now2, cs), write_contacts now1 now2 cs w) w ops.

(** Both clock readings of the write fall on the date [d]. *)
Definition on_date (d : list N) (op : write_op) : Prop :=
  ymd op.1.1 = d ∧ ymd op.1.2 = d.

Definition no_file : world :=
  {| csv_file := None; prev_snapshot := None; backups := ∅ |}.

Section Backups.
Context `{CaseTables}.

Lemma is_backup_for_name now : is_backup_for (ymd now) (backup_name now) = true.
Proof.
  unfold is_backup_for, backup_name, ymd_hms.
  apply andb_true_intro. split.
  2:{ rewrite (assoc_L (++)). apply endswith_app. }
  set (p := py "contacts_backup_" ++ ymd now ++ py "_").
  assert (py "contacts_backup_" ++ (ymd now ++ py "_" ++ hms now) ++ py ".csv"
          = p ++ (hms now ++ py ".csv")) as ->.
  { subst p. by rewrite <- !(assoc_L (++)). }
  apply startswith_app.
Qed.

Lemma existing_for_today_true d w :
  existing_for_today d w = true ↔
  ∃ fname, is_Some (backups w !! fname) ∧ is_backup_for d fname = true.
Proof.
  unfold existing_for_today. rewrite existsb_exists.
  split; intros (fname & H1 & H2); exists fname; split; try done.
  - apply elem_of_dom. apply elem_of_elements. by apply list_elem_of_In.
  - apply list_elem_of_In, elem_of_elements. by apply elem_of_dom.
Qed.

Lemma existing_for_today_fresh d w now :
  existing_for_today d w = false → ymd now = d →
  backups w !! backup_name now = None.
Proof.
  intros He Hd. destruct (backups w !! backup_name now) eqn:E; [|done].
  assert (existing_for_today d w = true) as Ht; [|congruence].
  apply existing_for_today_true. exists (backup_name now).
  split; [by rewrite E|]. subst d. apply is_backup_for_name.
Qed.

Lemma existing_for_today_backups d w w' :
  backups w = backups w' → existing_for_today d w = existing_for_today d w'.
Proof. unfold existing_for_today. by intros ->. Qed.

Lemma backups_write_existing now1 now2 cs w :
  existing_for_today (ymd now1) w = true →
  backups (write_contacts now1 now2 cs w) = backups w.
Proof.
  intros He. unfold write_contacts. simpl.
  destruct (csv_file w); [|done].
  rewrite (existing_for_today_backups _ _ w) by done. by rewrite He.
Qed.

Lemma backups_write_no_file now1 now2 cs w :
  csv_file w = None → backups (write_contacts now1 now2 cs w) = backups w.
Proof. intros Hw. unfold write_contacts. simpl. by rewrite Hw. Qed.

Lemma backups_write_first now1 now2 cs w rows :
  csv_file w = Some rows → existing_for_today (ymd now1) w = false →
  backups (write_contacts now1 now2 cs w)
  = <[backup_name now2 := rows]> (backups w).
Proof.
  intros Hw He. unfold write_contacts. simpl. rewrite Hw.
  rewrite (existing_for_today_backups _ _ w) by done. by rewrite He.
Qed.

Lemma backups_writes_existing d ops w :
  Forall (on_date d) ops → existing_for_today d w = true →
  backups (writes ops w) = backups w.
Proof.
  intros Hops. revert w.
  induction Hops as [|[[now1 now2] cs] ops [Hd1 Hd2] _ IH]; intros w He;
    simpl in *; [done|].
  subst d. rewrite IH.
  - by apply backups_write_existing.
  - rewrite <- He. apply existing_for_today_backups.
    by apply backups_write_existing.
Qed.

(** [m'] is [m], or [m] with one more file, a backup of the date [d]. *)
Definition at_most_one_more (d : list N)
    (m m' : gmap (list N) (list (gmap (list N) (option (list N))))) : Prop :=
  m' = m ∨
  ∃ now rows, ymd now = d ∧ m !! backup_name now = None ∧
              m' = <[backup_name now := rows]> m.

Lemma backups_writes_same_date d ops w :
  Forall (on_date d) ops →
  at_most_one_more d (backups w) (backups (writes ops w)).
Proof.
  intros Hops. revert w.
  induction Hops as [|[[now1 now2] cs] ops [Hd1 Hd2] Hops IH]; intros w;
    simpl in *; [by left|].
  destruct (existing_for_today d w) eqn:He.
  { left. rewrite backups_writes_existing with (d := d); try done.
    - apply backups_write_existing. by rewrite Hd1.
    - rewrite <- He. apply existing_for_today_backups.
      apply backups_write_existing. by rewrite Hd1. }
  destruct (csv_file w) as [rows|] eqn:Hw.
  - right. exists now2, rows. split; [done|].
    split; [by apply (existing_for_today_fresh d)|].
    rewrite <- (backups_write_first now1 now2 cs w rows) by (by rewrite ?Hd1).
    apply backups_writes_existing with (d := d); [done|].
    apply existing_for_today_true. exists (backup_name now2). split.
    + rewrite (backups_write_first now1 now2 cs w rows) by (by rewrite ?Hd1).
      by rewrite lookup_insert_eq.
    + rewrite <- Hd2. apply is_backup_for_name.
  - rewrite <- (backups_write_no_file now1 now2 cs w Hw). apply IH.
Qed.

End Backups.


Definition evening : datetime := {| ymd := py "20250101"; hms := py "203000" |}.



(** *** The merge of duplicates *)

Section Merge.
Context `{CaseTables}.

Lemma merged_tags_union target src :
  merged_tags target src = tag_set (tags target) ∪ tag_set (tags src).
Proof.
  unfold merged_tags, tag_set.
  change (tags target ++ py "," ++ tags src)
    with (tags target ++ 44%N :: tags src).
  by rewrite split_app, fmap_app, filter_app, list_to_set_app_L.
Qed.

(** A turn of the scan never forgets a consumed index and never changes
    the number of contacts. *)
Definition grows (st st' : scan) : Prop :=
  used st ⊆ used st' ∧ length (contacts st') = length (contacts st).

Lemma grows_refl st : grows st st.
Proof. by split. Qed.

Lemma grows_trans st1 st2 st3 : grows st1 st2 → grows st2 st3 → grows st1 st3.
Proof. intros [? ?] [? ?]. split; [set_solver|congruence]. Qed.

Lemma for_each_grows {A} (body : A → scan → result) xs :
  (∀ x st st', body x st = Ok st' → grows st st') →
  ∀ st st', for_each xs body st = Ok st' → grows st st'.
Proof.
  intros Hbody. induction xs as [|x xs IH]; intros st st'; simpl.
  { intros [= <-]. apply grows_refl. }
  destruct (body x st) as [st1| |] eqn:E; simpl; [|done..].
  intros Hrest. eapply grows_trans; [by eapply Hbody|by apply IH].
Qed.

Lemma visit_pair_grows thr i j st st' :
  visit_pair thr i j st = Ok st' → grows st st'.
Proof.
  unfold visit_pair, grows. intros Hv.
  repeat (case_match; simplify_eq/=); try done;
    (split; [set_solver|by rewrite ?length_insert]).
Qed.

Lemma visit_target_grows thr n i st st' :
  visit_target thr n i st = Ok st' → grows st st'.
Proof.
  unfold visit_target, inner_loop. case_decide.
  - intros [= <-]. apply grows_refl.
  - apply for_each_grows. intros j. apply visit_pair_grows.
Qed.

(** The scan never runs out of fuel: [merge_duplicates] always reports. *)
Lemma name_similarity_total a b : is_Some (name_similarity a b).
Proof.
  unfold name_similarity.
  destruct (Difflib.ratio_range (lower a) (lower b)) as (q & -> & _). by eexists.
Qed.

Lemma visit_pair_fuel thr i j st : visit_pair thr i j st ≠ NoFuel.
Proof.
  unfold visit_pair. case_decide; [done|].
  destruct (contacts st !! i) as [c|]; [|done].
  destruct (contacts st !! j) as [src|]; [|done].
  destruct (name_similarity_total (name c) (name src)) as [sim ->].
  repeat (case_match; try done).
Qed.

Lemma for_each_fuel {A} (body : A → scan → result) xs st :
  (∀ x st, body x st ≠ NoFuel) → for_each xs body st ≠ NoFuel.
Proof.
  intros Hbody. revert st. induction xs as [|x xs IH]; intros st; simpl; [done|].
  specialize (Hbody x st). destruct (body x st); simpl; [apply IH|done..].
Qed.

Lemma merge_duplicates_total now1 now2 thr lines w :
  is_Some (merge_duplicates now1 now2 thr lines w).
Proof.
  unfold merge_duplicates. case_match; [by eexists|].
  assert (scan_pairs thr (length (read_contacts w))
            (scan_start (read_contacts w) lines) ≠ NoFuel) as Hf.
  { apply for_each_fuel. intros i st. unfold visit_target, inner_loop.
    case_decide; [done|]. apply for_each_fuel. intros j. apply visit_pair_fuel. }
  repeat (case_match; try done); by eexists.
Qed.

(** A qualifying pair that is not consumed costs a line of input whatever
    was answered before: the scan has no auto mode. *)
Lemma qualifying_pair_prompts thr st i j c src sim :
  j ∉ used st →
  contacts st !! i = Some c → contacts st !! j = Some src →
  name_similarity (name c) (name src) = Some sim → (thr <= sim)%Q →
  match stdin st with
  | [] => ∃ st', visit_pair thr i j st = Raise EOFError st'
  | line :: rest =>
      ∃ st', visit_pair thr i j st = Ok st' ∧ stdin st' = rest ∧
             prompts st' = prompts st ++ [(name c, name src, sim)]
  end.
Proof.
  intros Hj Hc Hsrc Hsim Hthr. unfold visit_pair.
  rewrite decide_False by done. rewrite Hc, Hsrc, Hsim. simpl.
  apply Qle_bool_iff in Hthr as ->.
  destruct (stdin st) as [|line rest]; [by eexists|].
  repeat case_match; by eexists.
Qed.

Lemma not_kept_of_used st j : j ∈ used st → j ∉ kept_indices st.
Proof. unfold kept_indices. rewrite list_elem_of_filter. by intros Hu [Hn _]. Qed.

End Merge.

Definition jon_again : contact := mk "Jon Smith" "" "jon@example.org" "" false.



(** C1, at an input where the code departs from it.  Three contacts, the
    first against either of the others above the threshold.  The user
    answers A at the first prompt.  The pair [(0, 2)] then qualifies, and
    the code prompts again: the second line typed, S, is consumed, and
    contact 2 is left unmerged.  Answering A has the effect of M.
    ([qualifying_pair_prompts]: every qualifying pair costs a line of
    input.) *)
Theorem auto_all_prompts_again :
  (λ r, (outcome r, prompts (scan_end r), stdin (scan_end r),
         kept_indices (scan_end r), read_contacts (world_end r)))
    <$> merge_duplicates noon noon (85 # 100) [py "A"; py "S"]
          (world_of [jon; jonn; jon_again])
  = Some (MergedAndSaved,
          [(py "Jon Smith", py "Jonn Smith", 18 # 19);
           (py "Jon Smith", py "Jon Smith", 18 # 18)],
          [],
          [0; 2],
          [mk "Jon Smith" "5551234567" "" "vip,work" false; jon_again]) ∧
  merge_duplicates noon noon (85 # 100) [py "A"; py "S"]
    (world_of [jon; jonn; jon_again])
  = merge_duplicates noon noon (85 # 100) [py "M"; py "S"]
      (world_of [jon; jonn; jon_again]).
Proof. split; by vm_compute. Qed.

(** *** The similarity of names *)

(** C5 as stated fails: the similarity is not symmetric.  "tide" against
    "diet" scores [0.25], "diet" against "tide" scores [0.5]. *)
Lemma similarity_not_symmetric :
  ∃ p q, name_similarity (py "tide") (py "diet") = Some p ∧
         name_similarity (py "diet") (py "tide") = Some q ∧
         (p == 1 # 4)%Q ∧ (q == 1 # 2)%Q ∧ ¬ (p == q)%Q.
Proof. exists (2 # 8)%Q, (4 # 8)%Q. by vm_compute. Qed.

(** C5, as the code has it.  The similarity of a name with itself is
    [1.0]; every similarity lies in [[0, 1]]; and it depends on the two
    names only through their lower-case forms, so that names which differ
    in case alone score the same.  (Symmetry is left out: the matcher of
    [difflib] treats its two arguments differently.) *)
Theorem similarity_properties `{CaseTables} a b :
  (∃ q, name_similarity a a = Some q ∧ (q == 1)%Q) ∧
  (∃ q, name_similarity a b = Some q ∧ (0 <= q <= 1)%Q) ∧
  (∀ a' b', lower a' = lower a → lower b' = lower b →
            name_similarity a' b' = name_similarity a b) ∧
  (Forall is_ascii a →
   name_similarity (ascii_upper <$> a) b = name_similarity a b ∧
   name_similarity b (ascii_upper <$> a) = name_similarity b a).
Proof.
  unfold name_similarity. split_and!.
  - apply Difflib.ratio_refl.
  - apply Difflib.ratio_range.
  - by intros a' b' -> ->.
  - intros Ha.
    assert (lower (ascii_upper <$> a) = lower a) as ->; [|done].
    rewrite !lower_ascii; try done.
    + rewrite <- list_fmap_compose. apply list_fmap_ext.
      intros _ c _. apply ascii_lower_upper.
    + apply Forall_fmap. eapply Forall_impl; [done|].
      intros c Hc. by apply ascii_upper_is_ascii.
Qed.

Lemma similarity_properties_witness :
  Forall is_ascii (py "jon smith") ∧
  name_similarity (ascii_upper <$> py "jon smith") (py "Jonn Smith")
  = name_similarity (py "jon smith") (py "Jonn Smith").
Proof.
  assert (Forall is_ascii (py "jon smith")) as Ha.
  { by repeat constructor. }
  split; [exact Ha|].
  exact (proj1 (proj2 (proj2 (proj2
           (similarity_properties (py "jon smith") (py "Jonn Smith")))) Ha)).
Defined.

(** *** The check of e-mail addresses *)

(** The shape [local-part@domain.tld] of the specification: a local part
    and a domain, non-empty and free of [@] and whitespace, a dot, and a
    last label of two or more ASCII letters or digits. *)
Definition email_shape (s : list N) : Prop :=
  ∃ l d t, s = l ++ [64%N] ++ d ++ [46%N] ++ t ∧
           l ≠ [] ∧ d ≠ [] ∧
           Forall (λ c, not_at_space c = true) l ∧
           Forall (λ c, not_at_space c = true) d ∧
           2 ≤ length t ∧ Forall (λ c, alnum c = true) t.

Lemma lang_EMAIL_RE s : Re.lang EMAIL_RE s ↔ email_shape s.
Proof.
  unfold EMAIL_RE, email_shape. split.
  - intros (l & s1 & -> & [Hl1 Hl2]%Re.lang_plus_class & H1)%Re.lang_cat_iff.
    apply Re.lang_cat_iff in H1 as (a & s2 & -> & ->%Re.lang_chr & H2).
    apply Re.lang_cat_iff in H2
      as (d & s3 & -> & [Hd1 Hd2]%Re.lang_plus_class & H3).
    apply Re.lang_cat_iff in H3
      as (b & t & -> & ->%Re.lang_chr & [Ht1 Ht2]%Re.lang_atleast2_class).
    by exists l, d, t.
  - intros (l & d & t & -> & Hl1 & Hd1 & Hl2 & Hd2 & Ht1 & Ht2).
    apply Re.lang_cat_iff. exists l, ([64%N] ++ d ++ [46%N] ++ t).
    split; [done|]. split; [by apply Re.lang_plus_class|].
    apply Re.lang_cat_iff. exists [64%N], (d ++ [46%N] ++ t).
    split; [done|]. split; [by apply Re.lang_chr|].
    apply Re.lang_cat_iff. exists d, ([46%N] ++ t).
    split; [done|]. split; [by apply Re.lang_plus_class|].
    apply Re.lang_cat_iff. exists [46%N], t.
    split; [done|]. split; [by apply Re.lang_chr|].
    by apply Re.lang_atleast2_class.
Qed.

(** What [is_valid_email] accepts: the strings of the shape, and those
    strings followed by one newline. *)
Lemma is_valid_email_spec s :
  is_valid_email s = true ↔
  email_shape s ∨ ∃ s', s = s' ++ [10%N] ∧ email_shape s'.
Proof.
  unfold is_valid_email. rewrite Re.match_anchored_spec, lang_EMAIL_RE.
  apply or_iff_compat_l. split; intros (s' & -> & Hs'); exists s';
    (split; [done|by apply lang_EMAIL_RE]).
Qed.

Lemma alnum_not_space c : alnum c = true → isspace c = false.
Proof.
  unfold alnum, isspace. intros Hc.
  rewrite !orb_true_iff, !andb_true_iff, !N.leb_le in Hc.
  apply not_true_is_false. intros Hs.
  rewrite !orb_true_iff, !andb_true_iff, !N.leb_le, !N.eqb_eq in Hs. lia.
Qed.

Lemma email_shape_no_space s :
  email_shape s → Forall (λ c, isspace c = false) s.
Proof.
  intros (l & d & t & -> & _ & _ & Hl & Hd & _ & Ht).
  assert (∀ u, Forall (λ c, not_at_space c = true) u →
               Forall (λ c, isspace c = false) u) as Hns.
  { intros u Hu. eapply Forall_impl; [exact Hu|].
    intros c Hc. unfold not_at_space in Hc.
    apply andb_true_iff in Hc as [_ Hc]. by apply negb_true_iff. }
  repeat (apply Forall_app; split); try by apply Hns.
  - by repeat constructor.
  - by repeat constructor.
  - eapply Forall_impl; [done|]. apply alnum_not_space.
Qed.


(** ** The rest of the program: phones, lookup, delete, update, backups *)

(** [\d] of [re] on a [str] pattern is the Unicode category Nd, a table
    that is no part of the program: any predicate that is [0-9] below 128
    and holds of no whitespace. *)
Class DigitTable := {
  isdecimal : N → bool;
  isdecimal_ascii :
    ∀ c, (c < 128)%N → isdecimal c = ((48 <=? c) && (c <=? 57))%N;
  isdecimal_not_space : ∀ c, isdecimal c = true → isspace c = false;
}.

#[global, refine] Instance ascii_digits : DigitTable :=
  {| isdecimal c := ((48 <=? c) && (c <=? 57))%N |}.
Proof.
  - done.
  - intros c Hc. unfold isspace.
    rewrite andb_true_iff, !N.leb_le in Hc.
    apply not_true_is_false. intros Hs.
    rewrite !orb_true_iff, !andb_true_iff, !N.leb_le, !N.eqb_eq in Hs. lia.
Defined.

(** The value of a string of ASCII digits, most significant first. *)
Definition digits_value (s : list N) : Z :=
  foldl (λ acc c, acc * 10 + Z.of_N (c - 48))%Z 0%Z s.

(** [int(text)]: [None] for [ValueError].  The parser of Python (signs,
    blanks, underscores, the digits of other scripts) is an interface
    here; only its value on a plain string of ASCII digits is fixed. *)
Class IntParser := {
  py_int : list N → option Z;
  py_int_digits :
    ∀ s, s ≠ [] → Forall (λ c, (48 ≤ c ∧ c ≤ 57)%N) s →
         py_int s = Some (digits_value s);
}.

#[global, refine] Instance ascii_int : IntParser :=
  {| py_int s :=
       if bool_decide (s ≠ [] ∧ Forall (λ c, (48 ≤ c ∧ c ≤ 57)%N) s)
       then Some (digits_value s) else None |}.
Proof. intros s H1 H2. by rewrite bool_decide_eq_true_2. Defined.

(** [xs[idx]] for a Python [int]: a negative index counts from the end,
    [None] is [IndexError]. *)
Definition py_index {A} (xs : list A) (idx : Z) : option A :=
  if (0 <=? idx)%Z then xs !! Z.to_nat idx
  else if (- Z.of_nat (length xs) <=? idx)%Z
       then xs !! Z.to_nat (Z.of_nat (length xs) + idx)
       else None.

Inductive delete_outcome :=
  | DeleteNoName     (* the name typed is empty: nothing is printed *)
  | DeleteNotFound   (* "Not found." *)
  | Deleted.         (* "Deleted contact ..." *)

Inductive update_outcome :=
  | UpdateNoName     (* the name typed is empty *)
  | UpdateNotFound   (* "Contact not found." *)
  | Updated (invalid_phone invalid_email : bool). (* the two warnings *)

Inductive restore_outcome :=
  | NoBackups        (* "No backups available." *)
  | RestoreCancelled
  | Restored (fname : list N)
  | InvalidChoice.   (* "Invalid choice." *)

#[global] Instance str_ge_dec : RelDecision (flip str_le).
Proof. intros s t. unfold flip. apply _. Defined.

(** The pattern [contacts_backup_*.csv] of [list_backups] *)
Definition glob_backup (fname : list N) : bool :=
  startswith fname (py "contacts_backup_") && endswith fname (py ".csv")
  && (length (py "contacts_backup_") + length (py ".csv") <=? length fname).

Section More.
Context `{CaseTables} `{DigitTable} `{IntParser}.

(** [normalize_phone] *)
Definition normalize_phone (phone : list N) : list N :=
  filter (λ c, isdecimal c = true) phone.

(** [is_valid_phone] *)
Definition is_valid_phone (phone : list N) : bool :=
  let p := normalize_phone phone in
  (7 <=? length p) && (length p <=? 15).

(** The position and the contact [find_by_name_exact] stops at. *)
Definition find_by_name_exact_at (contacts : list contact) (name' : list N)
    : option (nat * contact) :=
  list_find (λ c, lower (name c) = lower name') contacts.

(** [find_by_name_exact] *)
Definition find_by_name_exact (contacts : list contact) (name' : list N)
    : option contact :=
  snd <$> find_by_name_exact_at contacts name'.

(** [ensure_csv_exists] *)
Definition ensure_csv_exists (w : world) : world :=
  match csv_file w with
  | None => set_csv_file (Some []) w
  | Some _ => w
  end.

(** [list_backups]: the names, without the directory in front. *)
Definition list_backups (w : world) : list (list N) :=
  merge_sort (flip str_le) (filter (λ f, glob_backup f = true)
                                   (elements (dom (backups w)))).

(** [restore_backup]; [line] is what the user types (asked for only when
    there are backups). *)
Definition restore_backup (line : list N) (w : world)
    : restore_outcome * world :=
  let files := list_backups w in
  if bool_decide (files = []) then (NoBackups, w)
  else
    let choice := strip line in
    if bool_decide (upper choice = py "C") then (RestoreCancelled, w)
    else
      match py_int choice with
      | None => (InvalidChoice, w)
      | Some k =>
          let idx := (k - 1)%Z in
          match py_index files idx with
          | None => (InvalidChoice, w)
          | Some sel =>
              match backups w !! sel with
              | Some rows => (Restored sel, set_csv_file (Some rows) w)
              | None => (InvalidChoice, w)
              end
          end
      end.

(** [delete_contact_interactive]; [line] is the name typed. *)
Definition delete_contact_interactive (now1 now2 : datetime) (line : list N)
    (w : world) : delete_outcome * world :=
  let name' := strip line in
  if negb (truthy name') then (DeleteNoName, w)
  else
    let contacts := read_contacts w in
    let remaining :=
      filter (λ c, lower (name c) ≠ lower name') contacts in
    if length remaining =? length contacts then (DeleteNotFound, w)
    else (Deleted, write_contacts now1 now2 remaining w).

(** The assignments of [update_contact_interactive] to [target]; the four
    answers are already stripped, [fav] also lowered. *)
Definition update_target (new_phone new_email new_tags fav : list N)
    (target : contact) : contact :=
  {| name := name target;
     phone := if truthy new_phone then normalize_phone new_phone
              else phone target;
     email := if truthy new_email then strip new_email else email target;
     tags := if truthy new_tags then new_tags else tags target;
     favorite :=
       if bool_decide (fav ∈ [py "y"; py "yes"]) then true
       else if bool_decide (fav ∈ [py "n"; py "no"]) then false
       else favorite target |}.

(** [update_contact_interactive]; the five lines typed (the last four are
    asked for only when the contact is found). *)
Definition update_contact_interactive (now1 now2 : datetime)
    (name_line phone_line email_line tags_line fav_line : list N)
    (w : world) : update_outcome * world :=
  let name' := strip name_line in
  if negb (truthy name') then (UpdateNoName, w)
  else
    let contacts := read_contacts w in
    match find_by_name_exact_at contacts name' with
    | None => (UpdateNotFound, w)
    | Some (i, target) =>
        let new_phone := strip phone_line in
        let new_email := strip email_line in
        let new_tags := strip tags_line in
        let fav := lower (strip fav_line) in
        let target' := update_target new_phone new_email new_tags fav target in
        let contacts := <[i := target']> contacts in
        (Updated (truthy new_phone && negb (is_valid_phone new_phone))
                 (truthy new_email && negb (is_valid_email new_email)),
         write_contacts now1 now2 contacts w)
    end.

End More.

(** *** Facts used by the properties below *)

Lemma strip_no_space s : Forall (λ c, isspace c = false) s → strip s = s.
Proof.
  intros Hs. unfold strip.
  assert (∀ u, Forall (λ c, isspace c = false) u → lstrip u = u) as Hl.
  { intros u Hu. apply lstrip_fixed. by destruct Hu. }
  rewrite Hl by done. unfold rstrip.
  rewrite Hl by (by apply Forall_reverse). apply reverse_involutive.
Qed.

Lemma filter_length_eq {A} (P : A → Prop) `{!∀ x, Decision (P x)} l :
  length (filter P l) = length l → filter P l = l.
Proof.
  induction l as [|x l IH]; [done|].
  rewrite filter_cons. case_decide; simpl.
  - intros [= Hl]. by rewrite IH.
  - intros Hl. pose proof (length_filter P l). lia.
Qed.

Section MoreFacts.
Context `{CaseTables} `{DigitTable} `{IntParser}.

Lemma normalize_phone_no_space p :
  Forall (λ c, isspace c = false) (normalize_phone p).
Proof.
  apply Forall_forall. intros c [Hc _]%list_elem_of_filter.
  by apply isdecimal_not_space.
Qed.

(** One write, then undo: what [read_contacts] gave before the write is
    back, when that was not the empty list. *)
Lemma undo_after_write now1 now2 now3 now4 cs w :
  read_contacts w ≠ [] →
  ∃ w', undo_last_write now3 now4 (write_contacts now1 now2 cs w)
        = (UndoSuccessful, w') ∧
        read_contacts w' = read_contacts w ∧ prev_snapshot w' = None.
Proof.
  intros Hne. unfold undo_last_write, load_prev_snapshot.
  rewrite prev_snapshot_write.
  destruct (read_contacts w) as [|c cs'] eqn:E; [done|].
  eexists. split; [done|]. split; [|done].
  rewrite <- E.
  change (read_contacts (write_contacts now3 now4 (read_contacts w)
                           (write_contacts now1 now2 cs w))
          = read_contacts w).
  apply read_after_write, read_contacts_valid.
Qed.

Lemma glob_backup_name now : glob_backup (backup_name now) = true.
Proof.
  unfold glob_backup, backup_name.
  apply andb_true_intro; split; [apply andb_true_intro; split|].
  - apply startswith_app.
  - rewrite (assoc_L (++)). apply endswith_app.
  - apply Nat.leb_le. rewrite !length_app. lia.
Qed.

Lemma elem_of_list_backups w f :
  f ∈ list_backups w ↔ is_Some (backups w !! f) ∧ glob_backup f = true.
Proof.
  unfold list_backups. rewrite merge_sort_Permutation.
  rewrite list_elem_of_filter, elem_of_elements, elem_of_dom. tauto.
Qed.

End MoreFacts.

(** *** Phones *)



(** *** What the file gives back *)

(** What becomes of a contact on its way through [contacts.csv]: the four
    texts stripped, and no contact at all when the stripped name is
    empty. *)
Definition through_file (c : contact) : option contact :=
  if truthy (strip (name c)) then
    Some {| name := strip (name c); phone := strip (phone c);
            email := strip (email c); tags := strip (tags c);
            favorite := favorite c |}
  else None.

Lemma read_write_through `{CaseTables} now1 now2 cs w :
  read_contacts (write_contacts now1 now2 cs w) = omap through_file cs.
Proof.
  unfold read_contacts. simpl.
  induction cs as [|c cs IH]; csimpl; [done|].
  rewrite IH. f_equal.
  unfold read_row, row_field, row_of_contact, through_file.
  repeat (rewrite lookup_insert_eq
          || rewrite lookup_insert_ne by by vm_compute).
  by rewrite favorite_text_roundtrip.
Qed.


(** *** Deleting *)

Definition carol : contact := mk "Carol" "5550004" "" "" false.
Definition alice_again : contact := mk "ALICE" "5550009" "" "home" true.

(** X3.  Deleting a name that some contact bears, in any letter case,
    removes every contact of that name and keeps the others in their
    order; the snapshot holds the list as it was. *)
Theorem delete_removes_all `{CaseTables} now1 now2 line w c :
  strip line ≠ [] →
  c ∈ read_contacts w → lower (name c) = lower (strip line) →
  ∃ w', delete_contact_interactive now1 now2 line w = (Deleted, w') ∧
        read_contacts w'
        = filter (λ c, lower (name c) ≠ lower (strip line)) (read_contacts w) ∧
        (∀ d, d ∈ read_contacts w' → lower (name d) ≠ lower (strip line)) ∧
        prev_snapshot w' = Some (read_contacts w).
Proof.
  intros Hn Hc Hname. unfold delete_contact_interactive.
  apply truthy_true in Hn as ->. simpl.
  set (remaining := filter (λ c, lower (name c) ≠ lower (strip line))
                           (read_contacts w)).
  assert (length remaining < length (read_contacts w)) as Hlen.
  { apply (length_filter_lt _ _ c); [done|]. by intros ?. }
  destruct (Nat.eqb_spec (length remaining) (length (read_contacts w)));
    [lia|].
  eexists. split; [done|].
  assert (read_contacts (write_contacts now1 now2 remaining w) = remaining)
    as Hr.
  { apply read_after_write, Forall_forall.
    intros d [_ Hd]%list_elem_of_filter.
    pose proof (read_contacts_valid w) as Hv.
    rewrite Forall_forall in Hv. by apply Hv. }
  rewrite Hr. split_and!; [done| |apply prev_snapshot_write].
  intros d Hd. by apply list_elem_of_filter in Hd as [? _].
Qed.

Lemma delete_removes_all_witness :
  ∃ w', delete_contact_interactive noon noon (py " alice ")
          (world_of [alice; bob; alice_again]) = (Deleted, w') ∧
        read_contacts w' = [bob].
Proof.
  destruct (delete_removes_all noon noon (py " alice ")
              (world_of [alice; bob; alice_again]) alice)
    as (w' & Hd & Hr & _).
  - by vm_compute.
  - vm_compute. by left.
  - by vm_compute.
  - exists w'. split; [exact Hd|]. rewrite Hr. by vm_compute.
Defined.

(** X4.  Deleting a name that no contact bears writes nothing: the file,
    the snapshot and the backups stay as they are. *)
Theorem delete_missing_changes_nothing `{CaseTables} now1 now2 line w :
  (∀ c, c ∈ read_contacts w → lower (name c) ≠ lower (strip line)) →
  (delete_contact_interactive now1 now2 line w).2 = w ∧
  (delete_contact_interactive now1 now2 line w).1 ≠ Deleted.
Proof.
  intros Hno. unfold delete_contact_interactive.
  destruct (truthy (strip line)); simpl; [|done].
  rewrite (filter_length_eq _ (read_contacts w)).
  - by rewrite Nat.eqb_refl.
  - apply Nat.le_antisymm; [apply length_filter|].
    induction (read_contacts w) as [|c cs IH]; [done|].
    rewrite filter_cons_True by (apply Hno; by left). simpl.
    apply le_n_S, IH. intros d Hd. apply Hno. by right.
Qed.

Lemma delete_missing_changes_nothing_witness :
  (delete_contact_interactive noon noon (py "Zed") (world_of [alice; bob])).2
  = world_of [alice; bob].
Proof.
  refine (proj1 (delete_missing_changes_nothing noon noon (py "Zed")
                   (world_of [alice; bob]) _)).
  intros c Hc. vm_compute in Hc.
  apply elem_of_cons in Hc as [->|Hc]; [by vm_compute|].
  apply elem_of_cons in Hc as [->|Hc]; [by vm_compute|].
  by apply elem_of_nil in Hc.
Defined.

(** X5.  A delete that removed something is undone by [undo_last_write]:
    [read_contacts] gives again what it gave before the delete. *)
Theorem delete_then_undo `{CaseTables} now1 now2 now3 now4 line w w' :
  delete_contact_interactive now1 now2 line w = (Deleted, w') →
  ∃ w'', undo_last_write now3 now4 w' = (UndoSuccessful, w'') ∧
         read_contacts w'' = read_contacts w.
Proof.
  unfold delete_contact_interactive.
  destruct (truthy (strip line)); simpl; [|done].
  match goal with
  | |- context [(?x =? ?y)] => destruct (Nat.eqb_spec x y) as [|Hlen]
  end; [done|].
  intros [= <-].
  destruct (undo_after_write now1 now2 now3 now4
              (filter (λ c, lower (name c) ≠ lower (strip line))
                      (read_contacts w)) w) as (w'' & Hu & Hr & _).
  - intros Hnil. rewrite Hnil in Hlen. by destruct Hlen.
  - by exists w''.
Qed.

Lemma delete_then_undo_witness :
  ∃ w'', undo_last_write evening evening
           (delete_contact_interactive noon noon (py "bob")
              (world_of [alice; bob])).2 = (UndoSuccessful, w'') ∧
         read_contacts w'' = read_contacts (world_of [alice; bob]).
Proof.
  refine (delete_then_undo noon noon evening evening (py "bob")
            (world_of [alice; bob]) _ _).
  by vm_compute.
Defined.

(** *** Updating *)

Lemma update_target_valid `{CaseTables} `{DigitTable} pl el tl fav target :
  valid target →
  valid (update_target (strip pl) (strip el) (strip tl) fav target).
Proof.
  intros (Hn & Hsn & Hsp & Hse & Hst). unfold valid, update_target. simpl.
  split_and!; try done.
  - case_match; [|done]. apply strip_no_space, normalize_phone_no_space.
  - case_match; [|done]. by rewrite !strip_idemp.
  - case_match; [|done]. by rewrite strip_idemp.
Qed.

(** X6.  An update touches one contact only, the first whose name is the
    name typed up to letter case: its name stays, the phone typed is
    stored as digits, the other contacts and the length of the list are
    unchanged, and the snapshot holds the list as it was.  With four blank
    answers the list read back is the same, the snapshot is overwritten
    nevertheless. *)
Theorem update_changes_one `{CaseTables} `{DigitTable} now1 now2
    name_line phone_line email_line tags_line fav_line w i target :
  strip name_line ≠ [] →
  read_contacts w !! i = Some target →
  lower (name target) = lower (strip name_line) →
  (∀ j c, read_contacts w !! j = Some c → j < i →
          lower (name c) ≠ lower (strip name_line)) →
  let target' := update_target (strip phone_line) (strip email_line)
                   (strip tags_line) (lower (strip fav_line)) target in
  ∃ warn1 warn2 w',
    update_contact_interactive now1 now2 name_line phone_line email_line
      tags_line fav_line w = (Updated warn1 warn2, w') ∧
    read_contacts w' = <[i := target']> (read_contacts w) ∧
    name target' = name target ∧
    (strip phone_line ≠ [] → phone target' = normalize_phone phone_line) ∧
    prev_snapshot w' = Some (read_contacts w) ∧
    (strip phone_line = [] → strip email_line = [] → strip tags_line = [] →
     strip fav_line = [] → read_contacts w' = read_contacts w).
Proof.
  intros Hn Hi Hname Hfirst target'.
  unfold update_contact_interactive.
  apply truthy_true in Hn as ->. simpl.
  assert (find_by_name_exact_at (read_contacts w) (strip name_line)
          = Some (i, target)) as ->.
  { unfold find_by_name_exact_at. apply list_find_Some.
    split_and!; try done; intros j c Hj Hlt Hc; by eapply Hfirst. }
  eexists _, _, _. split; [done|].
  pose proof (read_contacts_valid w) as Hv.
  assert (valid target) as Hvt.
  { rewrite Forall_forall in Hv. apply Hv. by eapply list_elem_of_lookup_2. }
  split_and!.
  - apply read_after_write. apply Forall_insert; [done|].
    by apply update_target_valid.
  - done.
  - intros Hp. apply truthy_true in Hp. subst target'. unfold update_target.
    simpl. rewrite Hp. unfold normalize_phone.
    clear. unfold strip, rstrip.
    assert (∀ s, filter (λ c, isdecimal c = true) (lstrip s)
                 = filter (λ c, isdecimal c = true) s) as Hl.
    { induction s as [|c s IH]; simpl; [done|].
      destruct (isspace c) eqn:E; [|done].
      rewrite filter_cons_False; [done|].
      intros Hd%isdecimal_not_space. congruence. }
    rewrite filter_reverse, Hl, filter_reverse, reverse_involutive.
    apply Hl.
  - apply prev_snapshot_write.
  - intros Hp He Ht Hf.
    rewrite read_after_write.
    2:{ apply Forall_insert; [done|]. by apply update_target_valid. }
    apply list_insert_id. rewrite Hi. f_equal.
    subst target'. unfold update_target. rewrite Hp, He, Ht, Hf. simpl.
    rewrite (lower_ascii []) by constructor. simpl.
    by destruct target.
Qed.

Lemma update_changes_one_witness :
  ∃ warn1 warn2 w',
    update_contact_interactive noon noon (py "alice") (py " 555-77 88 ")
      (py "") (py "home") (py "Y") (world_of [bob; alice; alice_again])
    = (Updated warn1 warn2, w') ∧
    read_contacts w'
    = [bob; mk "Alice" "5557788" "" "home" true; alice_again].
Proof.
  destruct (update_changes_one noon noon (py "alice") (py " 555-77 88 ")
              (py "") (py "home") (py "Y")
              (world_of [bob; alice; alice_again]) 1 alice)
    as (warn1 & warn2 & w' & Hu & Hr & _).
  - by vm_compute.
  - by vm_compute.
  - by vm_compute.
  - intros j c Hj Hlt. destruct j as [|j]; [|lia].
    vm_compute in Hj. injection Hj as <-. by vm_compute.
  - exists warn1, warn2, w'. split; [exact Hu|]. rewrite Hr. by vm_compute.
Defined.

(** *** Listing and restoring backups *)

Section Restore.
Context `{CaseTables} `{IntParser}.

Lemma backup_kept_by_write now1 now2 cs w now rows :
  ymd now1 = ymd now2 →
  backups w !! backup_name now = Some rows →
  backups (write_contacts now1 now2 cs w) !! backup_name now = Some rows.
Proof.
  intros Hd Hb. destruct (existing_for_today (ymd now1) w) eqn:He.
  { by rewrite backups_write_existing. }
  destruct (csv_file w) as [rows'|] eqn:Hw.
  - rewrite (backups_write_first now1 now2 cs w rows') by done.
    rewrite lookup_insert_ne; [done|]. intros Heq.
    pose proof (existing_for_today_fresh (ymd now1) w now2 He (eq_sym Hd)).
    rewrite Heq in *. congruence.
  - by rewrite backups_write_no_file.
Qed.

Lemma backup_kept_by_writes ops w now rows :
  Forall (λ op : write_op, ymd op.1.1 = ymd op.1.2) ops →
  backups w !! backup_name now = Some rows →
  backups (writes ops w) !! backup_name now = Some rows.
Proof.
  intros Hops. revert w.
  induction Hops as [|[[now1 now2] cs] ops Hd _ IH]; intros w Hb;
    simpl in *; [done|].
  apply IH. by apply backup_kept_by_write.
Qed.

Lemma restore_backup_at line w k f rows :
  upper (strip line) ≠ py "C" → py_int (strip line) = Some k →
  py_index (list_backups w) (k - 1) = Some f →
  backups w !! f = Some rows →
  restore_backup line w = (Restored f, set_csv_file (Some rows) w).
Proof.
  intros Hc Hk Hf Hrows. unfold restore_backup.
  rewrite bool_decide_eq_false_2.
  2:{ intros Hnil. rewrite Hnil in Hf. unfold py_index in Hf.
      by repeat case_match. }
  rewrite bool_decide_eq_false_2 by done.
  by rewrite Hk, Hf, Hrows.
Qed.

End Restore.

(** X7.  [list_backups] lists each file of the backup directory whose
    name fits [contacts_backup_*.csv] once, the greatest name first.
    Every backup [write_contacts] or [create_backup] has stored is in the
    list. *)
Theorem list_backups_sorted_complete w :
  StronglySorted (flip str_le) (list_backups w) ∧
  NoDup (list_backups w) ∧
  (∀ f, f ∈ list_backups w ↔
        is_Some (backups w !! f) ∧ glob_backup f = true) ∧
  (∀ now, is_Some (backups w !! backup_name now) →
          backup_name now ∈ list_backups w).
Proof.
  split_and!.
  - unfold list_backups. apply StronglySorted_merge_sort.
    + intros x y z Hxy Hyz. unfold flip in *. by etrans.
    + intros x y. unfold flip. destruct (total str_le x y); auto.
  - unfold list_backups. rewrite merge_sort_Permutation.
    apply NoDup_filter, NoDup_elements.
  - apply elem_of_list_backups.
  - intros now Hnow. apply elem_of_list_backups.
    split; [done|apply glob_backup_name].
Qed.

Lemma list_backups_sorted_complete_witness :
  is_Some (backups (create_backup noon (world_of [alice])) !! backup_name noon) ∧
  backup_name noon ∈ list_backups (create_backup noon (world_of [alice])).
Proof.
  assert (is_Some (backups (create_backup noon (world_of [alice]))
                     !! backup_name noon)) as Hs.
  { vm_compute. by eexists. }
  split; [exact Hs|].
  exact (proj2 (proj2 (proj2 (list_backups_sorted_complete
           (create_backup noon (world_of [alice]))))) noon Hs).
Defined.

(** X8.  Choosing number [k] of the menu, [1 <= k], restores the [k]-th
    backup listed: [contacts.csv] becomes a copy of it.  The snapshot and
    the backup directory are left alone, so no snapshot of the state
    replaced is taken. *)
Theorem restore_backup_chosen `{CaseTables} `{IntParser} line w k f :
  upper (strip line) ≠ py "C" → py_int (strip line) = Some k →
  (1 ≤ k)%Z → list_backups w !! Z.to_nat (k - 1) = Some f →
  ∃ rows w',
    restore_backup line w = (Restored f, w') ∧
    backups w !! f = Some rows ∧ csv_file w' = Some rows ∧
    read_contacts w' = omap read_row rows ∧
    prev_snapshot w' = prev_snapshot w ∧ backups w' = backups w.
Proof.
  intros Hc Hk Hk1 Hf.
  assert (f ∈ list_backups w) as Hin by (by eapply list_elem_of_lookup_2).
  apply elem_of_list_backups in Hin as [[rows Hrows] _].
  exists rows, (set_csv_file (Some rows) w). split_and!; try done.
  apply (restore_backup_at line w k); try done.
  unfold py_index. destruct (Z.leb_spec 0 (k - 1)); [done|lia].
Qed.

Definition two_backups : world :=
  create_backup evening
    (write_contacts noon noon [alice; bob]
       (create_backup noon (world_of [alice]))).

Lemma restore_backup_chosen_witness :
  ∃ rows w',
    restore_backup (py "2") two_backups = (Restored (backup_name noon), w') ∧
    backups two_backups !! backup_name noon = Some rows ∧
    csv_file w' = Some rows ∧
    read_contacts w' = omap read_row rows ∧
    prev_snapshot w' = prev_snapshot two_backups ∧
    backups w' = backups two_backups.
Proof.
  refine (restore_backup_chosen (py "2") two_backups 2 (backup_name noon)
            _ _ _ _).
  - by vm_compute.
  - by vm_compute.
  - lia.
  - by vm_compute.
Defined.

(** X9.  A number outside the menu is not always refused.  The index
    [k - 1] is used as Python does: for [k <= 0] no smaller than
    [1 - n], with [n] backups listed, it counts from the end, so that 0
    restores the last backup listed, the one with the least name.  Only
    [k > n] and [k < 1 - n] give "Invalid choice." and leave the files as
    they are. *)
Theorem restore_backup_outside_menu `{CaseTables} `{IntParser} line w k :
  upper (strip line) ≠ py "C" → py_int (strip line) = Some k →
  list_backups w ≠ [] →
  let n := Z.of_nat (length (list_backups w)) in
  ((1 - n ≤ k ≤ 0)%Z →
   ∃ f rows, list_backups w !! Z.to_nat (n + k - 1) = Some f ∧
             backups w !! f = Some rows ∧
             restore_backup line w
             = (Restored f, set_csv_file (Some rows) w)) ∧
  ((n < k ∨ k < 1 - n)%Z → restore_backup line w = (InvalidChoice, w)).
Proof.
  intros Hc Hk Hne n. split.
  - intros Hr.
    destruct (lookup_lt_is_Some_2 (list_backups w) (Z.to_nat (n + k - 1)))
      as [f Hf]; [lia|].
    assert (f ∈ list_backups w) as Hin by (by eapply list_elem_of_lookup_2).
    apply elem_of_list_backups in Hin as [[rows Hrows] _].
    exists f, rows. split_and!; try done.
    apply (restore_backup_at line w k); try done.
    unfold py_index. destruct (Z.leb_spec 0 (k - 1)); [lia|].
    destruct (Z.leb_spec (- Z.of_nat (length (list_backups w))) (k - 1));
      [|lia].
    rewrite <- Hf. f_equal. lia.
  - intros Hr. unfold restore_backup.
    rewrite bool_decide_eq_false_2 by done.
    rewrite bool_decide_eq_false_2 by done.
    rewrite Hk. unfold py_index.
    destruct (Z.leb_spec 0 (k - 1)).
    + rewrite lookup_ge_None_2; [done|lia].
    + destruct (Z.leb_spec (- Z.of_nat (length (list_backups w))) (k - 1));
        [lia|done].
Qed.

Lemma restore_backup_outside_menu_witness :
  ∃ f rows, list_backups two_backups !! Z.to_nat (2 + 0 - 1) = Some f ∧
            backups two_backups !! f = Some rows ∧
            restore_backup (py "0") two_backups
            = (Restored f, set_csv_file (Some rows) two_backups).
Proof.
  refine (proj1 (restore_backup_outside_menu (py "0") two_backups 0 _ _ _) _).
  - by vm_compute.
  - by vm_compute.
  - by vm_compute.
  - vm_compute. split; by intros ?.
Defined.

(** X10.  Backup and restore compose.  After [create_backup], and then
    any writes none of which straddles midnight, the backup made is still
    listed with the content it was given, and restoring it makes
    [read_contacts] return what it returned when the backup was made. *)
Theorem backup_then_restore `{CaseTables} `{IntParser} now ops w rows :
  csv_file w = Some rows →
  Forall (λ op : write_op, ymd op.1.1 = ymd op.1.2) ops →
  let w2 := writes ops (create_backup now w) in
  backup_name now ∈ list_backups w2 ∧
  backups w2 !! backup_name now = Some rows ∧
  (∀ line k,
     upper (strip line) ≠ py "C" → py_int (strip line) = Some k →
     (1 ≤ k)%Z →
     list_backups w2 !! Z.to_nat (k - 1) = Some (backup_name now) →
     read_contacts (restore_backup line w2).2 = read_contacts w).
Proof.
  intros Hw Hops w2.
  assert (backups w2 !! backup_name now = Some rows) as Hb.
  { apply backup_kept_by_writes; [done|].
    unfold create_backup. rewrite Hw. simpl. apply lookup_insert_eq. }
  split_and!; [|done|].
  - apply elem_of_list_backups. split; [by rewrite Hb|apply glob_backup_name].
  - intros line k Hc Hk Hk1 Hf.
    rewrite (restore_backup_at line w2 k (backup_name now) rows); try done.
    + unfold read_contacts. simpl. by rewrite Hw.
    + unfold py_index. destruct (Z.leb_spec 0 (k - 1)); [done|lia].
Qed.

Lemma backup_then_restore_witness :
  read_contacts
    (restore_backup (py "1")
       (writes [(noon, noon, [alice; bob]); (noon, noon, [])]
          (create_backup noon (world_of [alice])))).2
  = read_contacts (world_of [alice]).
Proof.
  refine (proj2 (proj2 (backup_then_restore noon
            [(noon, noon, [alice; bob]); (noon, noon, [])]
            (world_of [alice]) _ _ _)) (py "1") 1%Z _ _ _ _).
  - reflexivity.
  - by repeat constructor.
  - by vm_compute.
  - by vm_compute.
  - lia.
  - by vm_compute.
Defined.

(** X11.  [ensure_csv_exists] creates an empty book when there is no
    file and touches nothing otherwise: what [read_contacts] returns, the
    snapshot and the backups are the same before and after, a second call
    does nothing, and after it [create_backup] always stores a file. *)
Theorem ensure_csv_exists_harmless `{CaseTables} now w :
  read_contacts (ensure_csv_exists w) = read_contacts w ∧
  prev_snapshot (ensure_csv_exists w) = prev_snapshot w ∧
  backups (ensure_csv_exists w) = backups w ∧
  ensure_csv_exists (ensure_csv_exists w) = ensure_csv_exists w ∧
  (is_Some (csv_file w) → ensure_csv_exists w = w) ∧
  is_Some (backups (create_backup now (ensure_csv_exists w))
             !! backup_name now).
Proof.
  unfold ensure_csv_exists, read_contacts, create_backup.
  destruct w as [[rows|] snap bk]; simpl; split_and!; try done;
    try (by rewrite lookup_insert_eq); by intros [? ?].
Qed.

Lemma ensure_csv_exists_harmless_witness :
  is_Some (csv_file (world_of [alice])) ∧
  ensure_csv_exists (world_of [alice]) = world_of [alice].
Proof.
  assert (is_Some (csv_file (world_of [alice]))) as Hs by (by eexists).
  split; [exact Hs|].
  exact (proj1 (proj2 (proj2 (proj2 (proj2
           (ensure_csv_exists_harmless noon (world_of [alice])))))) Hs).
Defined.

(** ** Adding, importing and exporting *)

Inductive add_outcome :=
  | AddNoName                 (* "Name cannot be empty." *)
  | MergedIntoExisting (i : nat)  (* "Merged into existing contact." *)
  | AddedNew.                 (* "Contact added successfully." *)

Inductive import_outcome :=
  | ImportFileNotFound        (* "File not found." *)
  | ImportNoValid             (* "No valid contacts in file." *)
  | Imported (n : nat)        (* "Imported n contacts." *)
  | ImportFailed.             (* "Bulk import failed." *)

(** The class [[^a-zA-Z0-9_-]] of [export_vcard_selected], negated. *)
Definition filename_safe (c : N) : bool :=
  (alnum c || (c =? 95) || (c =? 45))%N.

Section AddImport.
Context `{CaseTables} `{DigitTable}.

(** The contact [add_contact_interactive] builds from the five answers. *)
Definition contact_of_answers
    (name_line phone_line email_line tags_line fav_line : list N) : contact :=
  {| name := strip name_line;
     phone := normalize_phone (strip phone_line);
     email := strip (strip email_line);
     tags := strip tags_line;
     favorite :=
       bool_decide (lower (strip fav_line) ∈ [py "y"; py "yes"]) |}.

(** [find_by_name_exact(contacts, close[0]) or next((c for c in contacts
    if c["name"] == close[0]), None)], with the position of the contact
    found. *)
Definition merge_target (contacts : list contact) (close0 : list N)
    : option (nat * contact) :=
  match find_by_name_exact_at contacts close0 with
  | Some t => Some t
  | None => list_find (λ c, name c = close0) contacts
  end.

(** [add_contact_interactive]; the six lines typed (the last one is asked
    for only when similar names are found).  [None] only for [difflib]
    out of fuel. *)
Definition add_contact_interactive (now1 now2 : datetime)
    (name_line phone_line email_line tags_line fav_line choice_line : list N)
    (w : world) : option (add_outcome * world) :=
  if negb (truthy (strip name_line)) then Some (AddNoName, w)
  else
    let contact := contact_of_answers name_line phone_line email_line
                     tags_line fav_line in
    let contacts := read_contacts w in
    let names := name <$> contacts in
    close ← DifflibClose.get_close_matches (name contact) names 3 (85 # 100);
    let added :=
      (AddedNew, write_contacts now1 now2 (contacts ++ [contact]) w) in
    match close with
    | [] => Some added
    | close0 :: _ =>
        let choice :=
          if truthy (upper (strip choice_line)) then upper (strip choice_line)
          else py "A" in
        if bool_decide (choice = py "M") then
          match merge_target contacts close0 with
          | Some (i, target) =>
              Some (MergedIntoExisting i,
                    write_contacts now1 now2
                      (<[i := merge_into target contact]> contacts) w)
          | None => Some added
          end
        else Some added
    end.

(** [str(cell).strip() in ("1", "true", "yes", "y")] of [bulk_import_csv]:
    no [lower()] here, and [str(None)] is "None". *)
Definition import_favorite (cell : option (option (list N))) : bool :=
  match cell with
  | Some (Some v) =>
      bool_decide (strip v ∈ [py "1"; py "true"; py "yes"; py "y"])
  | Some None => false
  | None => false
  end.

(** [cell or ""], for a cell that may be missing or [None]. *)
Definition cell_or_empty (cell : option (option (list N))) : list N :=
  match cell with
  | Some (Some v) => v
  | _ => []
  end.

(** One turn of the loop of [bulk_import_csv]: [None] when
    [row.get("name", "").strip()] raises (the cell is [None]), else the
    contact to append, if any. *)
Definition import_row (row : gmap (list N) (option (list N)))
    : option (option contact) :=
  match row !! py "name" with
  | Some None => None
  | cell =>
      let name := strip (cell_or_empty cell) in
      if negb (truthy name) then Some None
      else
        Some (Some {| name := name;
                      phone := normalize_phone
                                 (cell_or_empty (row !! py "phone"));
                      email := strip (cell_or_empty (row !! py "email"));
                      tags := cell_or_empty (row !! py "tags");
                      favorite := import_favorite (row !! py "favorite") |})
  end.

(** The loop over the rows: [None] as soon as one raises. *)
Fixpoint import_rows (rows : list (gmap (list N) (option (list N))))
    : option (list contact) :=
  match rows with
  | [] => Some []
  | row :: rest =>
      c ← import_row row;
      cs ← import_rows rest;
      Some (match c with Some c => c :: cs | None => cs end)
  end.

(** [bulk_import_csv]; [file] is the file at the path typed: [None] when
    the path is empty or names no file, else its rows. *)
Definition bulk_import_csv (now1 now2 : datetime)
    (file : option (list (gmap (list N) (option (list N))))) (w : world)
    : import_outcome * world :=
  match file with
  | None => (ImportFileNotFound, w)
  | Some rows =>
      match import_rows rows with
      | None => (ImportFailed, w)
      | Some [] => (ImportNoValid, w)
      | Some incoming =>
          (Imported (length incoming),
           write_contacts now1 now2 (read_contacts w ++ incoming) w)
      end
  end.

(** [re.sub(r'[^a-zA-Z0-9_-]', '_', name) + ".vcf"] *)
Definition vcard_filename (name' : list N) : list N :=
  ((λ c, if filename_safe c then c else 95%N) <$> name') ++ py ".vcf".

(** The text [export_vcard_selected] writes for [target]. *)
Definition vcard_text (target : contact) : list N :=
  py "BEGIN:VCARD" ++ [10%N] ++ py "VERSION:3.0" ++ [10%N]
  ++ py "N:" ++ name target ++ [10%N]
  ++ (if truthy (phone target)
      then py "TEL;TYPE=CELL:" ++ phone target ++ [10%N] else [])
  ++ (if truthy (email target)
      then py "EMAIL;TYPE=INTERNET:" ++ email target ++ [10%N] else [])
  ++ py "END:VCARD" ++ [10%N].

(** [export_vcard_selected]: the file written, name and text; [None] for
    "Not found.". *)
Definition export_vcard_selected (line : list N) (w : world)
    : option (list N * list N) :=
  target ← find_by_name_exact (read_contacts w) (strip line);
  Some (vcard_filename (name target), vcard_text target).

End AddImport.

(** *** Merged contacts keep the data-model invariants *)

Lemma strip_fixed_iff s :
  strip s = s ↔ clean_head s ∧ clean_head (reverse s).
Proof.
  split.
  - intros Hs. split.
    + pose proof (lstrip_head s) as Hh.
      destruct (rstrip_prefix (lstrip s)) as [k Hk].
      fold (strip s) in Hk. rewrite Hs in Hk.
      destruct s as [|c s]; [done|]. by rewrite Hk in Hh.
    + rewrite <- Hs at 1. unfold strip, rstrip.
      rewrite reverse_involutive. apply lstrip_head.
  - intros [H1 H2]. unfold strip, rstrip.
    rewrite (lstrip_fixed s) by done.
    rewrite (lstrip_fixed (reverse s)) by done.
    apply reverse_involutive.
Qed.

Lemma clean_head_app s t : s ≠ [] → clean_head s → clean_head (s ++ t).
Proof. by destruct s. Qed.

Lemma join_stripped (ts : list (list N)) :
  Forall (λ t, t ≠ [] ∧ strip t = t) ts →
  strip (join (py ",") ts) = join (py ",") ts ∧
  (ts ≠ [] → join (py ",") ts ≠ []).
Proof.
  induction 1 as [|t ts [Hne Ht] Hts [IH1 IH2]]; [done|].
  apply strip_fixed_iff in Ht as [Ht1 Ht2].
  destruct ts as [|t' ts].
  { simpl. split; [by apply strip_fixed_iff|done]. }
  change (join (py ",") (t :: t' :: ts))
    with (t ++ py "," ++ join (py ",") (t' :: ts)).
  split; [|by destruct t].
  apply strip_fixed_iff. split; [by apply clean_head_app|].
  rewrite !reverse_app. rewrite <- (assoc_L (++)).
  apply clean_head_app.
  - intros Hnil. apply (f_equal reverse) in Hnil.
    rewrite reverse_involutive in Hnil. by apply IH2.
  - by apply strip_fixed_iff in IH1 as [_ ?].
Qed.

Lemma merge_into_valid `{CaseTables} target src :
  valid target → strip (phone src) = phone src →
  strip (email src) = email src → valid (merge_into target src).
Proof.
  intros (Hn & Hsn & Hsp & Hse & Hst) Hp He. unfold valid, merge_into. simpl.
  split_and!; try done.
  - by case_match.
  - by case_match.
  - apply join_stripped. apply Forall_forall. intros t Ht.
    apply sorted_spec in Ht. unfold merged_tags in Ht.
    apply elem_of_list_to_set in Ht.
    apply list_elem_of_filter in Ht as [Ht1 Ht2].
    apply list_elem_of_fmap in Ht2 as (u & -> & _).
    split; [by apply truthy_true|apply strip_idemp].
Qed.

Lemma merge_into_name `{CaseTables} target src :
  name (merge_into target src) = name target.
Proof. done. Qed.

(** *** Adding a contact *)

Section AddFacts.
Context `{CaseTables} `{DigitTable}.

Lemma contact_of_answers_valid nl pl el tl fl :
  strip nl ≠ [] → valid (contact_of_answers nl pl el tl fl).
Proof.
  intros Hn. unfold valid, contact_of_answers. simpl.
  split_and!; [done|apply strip_idemp| |by rewrite !strip_idemp
               |apply strip_idemp].
  apply strip_no_space, normalize_phone_no_space.
Qed.

Lemma read_after_append now1 now2 w c :
  valid c →
  read_contacts (write_contacts now1 now2 (read_contacts w ++ [c]) w)
  = read_contacts w ++ [c].
Proof.
  intros Hc. apply read_after_write, Forall_app.
  split; [apply read_contacts_valid|by constructor].
Qed.

End AddFacts.

(** X12.  Unless similar names are found and the user answers M, the
    contact typed is appended to the book: name, e-mail and tags stripped,
    the phone reduced to its digits.  This is so for A, for an empty
    answer, and for C as well, which the prompt offers as "cancel".  An
    empty book never prompts. *)
Theorem add_appends `{CaseTables} `{DigitTable} now1 now2
    name_line phone_line email_line tags_line fav_line choice_line w :
  strip name_line ≠ [] →
  ∃ close,
    DifflibClose.get_close_matches (strip name_line)
      (name <$> read_contacts w) 3 (85 # 100) = Some close ∧
    (read_contacts w = [] → close = []) ∧
    (close = [] ∨ upper (strip choice_line) ≠ py "M" →
     ∃ w', add_contact_interactive now1 now2 name_line phone_line email_line
             tags_line fav_line choice_line w = Some (AddedNew, w') ∧
           read_contacts w'
           = read_contacts w
             ++ [contact_of_answers name_line phone_line email_line
                   tags_line fav_line] ∧
           prev_snapshot w' = Some (read_contacts w)).
Proof.
  intros Hn.
  destruct (DifflibClose.get_close_matches_spec (strip name_line)
              (name <$> read_contacts w) 3 (85 # 100))
    as (close & Hclose & _ & _ & Hnil & _).
  exists close. split; [done|]. split.
  { intros Hw. apply Hnil. by rewrite Hw. }
  intros Hor. unfold add_contact_interactive.
  apply truthy_true in Hn as Ht. rewrite Ht. simpl. rewrite Hclose. simpl.
  assert (∃ w', Some (AddedNew,
                      write_contacts now1 now2
                        (read_contacts w
                         ++ [contact_of_answers name_line phone_line
                               email_line tags_line fav_line]) w)
                = Some (AddedNew, w') ∧
                read_contacts w'
                = read_contacts w
                  ++ [contact_of_answers name_line phone_line email_line
                        tags_line fav_line] ∧
                prev_snapshot w' = Some (read_contacts w)) as Hadded.
  { eexists. split; [done|]. split; [|apply prev_snapshot_write].
    by apply read_after_append, contact_of_answers_valid. }
  destruct close as [|close0 rest]; [done|].
  destruct Hor as [?|Hc]; [done|].
  rewrite bool_decide_eq_false_2; [done|].
  destruct (truthy (upper (strip choice_line))); [done|by vm_compute].
Qed.

Lemma add_appends_witness :
  ∃ w', add_contact_interactive noon noon (py " Alicia ") (py "555-12 34")
          (py "a@b.org ") (py "x, y") (py "yes") (py "C")
          (world_of [alice; bob]) = Some (AddedNew, w') ∧
        read_contacts w'
        = [alice; bob; mk "Alicia" "5551234" "a@b.org" "x, y" true].
Proof.
  destruct (add_appends noon noon (py " Alicia ") (py "555-12 34")
              (py "a@b.org ") (py "x, y") (py "yes") (py "C")
              (world_of [alice; bob]))
    as (close & _ & _ & Hadd).
  - by vm_compute.
  - destruct Hadd as (w' & Ha & Hr & _).
    + right. by vm_compute.
    + exists w'. split; [exact Ha|]. rewrite Hr. by vm_compute.
Defined.



(** *** Bulk import *)

Section ImportFacts.
Context `{CaseTables} `{DigitTable}.

Lemma import_row_ok row c :
  import_row row = Some (Some c) →
  through_file c = Some {| name := name c; phone := phone c;
                           email := email c; tags := strip (tags c);
                           favorite := favorite c |}.
Proof.
  unfold import_row.
  destruct (row !! py "name") as [[v|]|] eqn:E; simpl; [|done..].
  destruct (truthy (strip v)) eqn:Et; simpl; [|done].
  intros [= <-]. unfold through_file. simpl.
  rewrite strip_idemp, Et, strip_idemp.
  by rewrite (strip_no_space _ (normalize_phone_no_space _)).
Qed.

Lemma import_rows_through rows incoming :
  import_rows rows = Some incoming →
  omap through_file incoming
  = (λ c, {| name := name c; phone := phone c; email := email c;
             tags := strip (tags c); favorite := favorite c |})
    <$> incoming.
Proof.
  revert incoming. induction rows as [|row rows IH]; intros incoming; simpl.
  { by intros [= <-]. }
  destruct (import_row row) as [c|] eqn:Er; simpl; [|done].
  destruct (import_rows rows) as [cs|]; simpl; [|done].
  intros [= <-]. destruct c as [c|]; [|by apply IH].
  csimpl. rewrite (import_row_ok row c Er). by rewrite IH.
Qed.

Lemma import_rows_raises rows row :
  row ∈ rows → row !! py "name" = Some None → import_rows rows = None.
Proof.
  intros Hin Hrow. induction Hin as [row rows|row row' rows _ IH]; simpl.
  - unfold import_row. by rewrite Hrow.
  - rewrite IH by done. by destruct (import_row row') as [[c|]|].
Qed.

End ImportFacts.

(** X14.  A bulk import appends, in the order of the file, one contact
    for each row with a non-blank name, and [read_contacts] then returns
    the old contacts followed by these, their tags stripped on the way
    through the file.  The number reported is the number appended. *)
Theorem bulk_import_appends `{CaseTables} `{DigitTable} now1 now2 rows w
    incoming :
  import_rows rows = Some incoming → incoming ≠ [] →
  ∃ w', bulk_import_csv now1 now2 (Some rows) w
        = (Imported (length incoming), w') ∧
        read_contacts w'
        = read_contacts w
          ++ ((λ c, {| name := name c; phone := phone c; email := email c;
                       tags := strip (tags c); favorite := favorite c |})
              <$> incoming) ∧
        length (read_contacts w')
        = length (read_contacts w) + length incoming ∧
        prev_snapshot w' = Some (read_contacts w).
Proof.
  intros Hrows Hne. unfold bulk_import_csv. rewrite Hrows.
  destruct incoming as [|c cs] eqn:E; [done|]. rewrite <- E in *.
  eexists. split; [done|].
  assert (read_contacts
            (write_contacts now1 now2 (read_contacts w ++ incoming) w)
          = read_contacts w
            ++ ((λ c, {| name := name c; phone := phone c; email := email c;
                         tags := strip (tags c); favorite := favorite c |})
                <$> incoming)) as Hr.
  { rewrite read_write_through.
    rewrite omap_app. f_equal; [|by eapply import_rows_through].
    rewrite <- (read_write_through now1 now2 _ w).
    apply read_after_write, read_contacts_valid. }
  split_and!; [done| |apply prev_snapshot_write].
  by rewrite Hr, length_app, length_fmap.
Qed.

Definition import_file : list (gmap (list N) (option (list N))) :=
  [ <[py "name" := Some (py " Dan ")]>
      (<[py "phone" := Some (py "555-0005")]>
      (<[py "tags" := Some (py " gym ")]>
      (<[py "favorite" := Some (py "TRUE")]> ∅)));
    <[py "name" := Some (py "  ")]> (<[py "phone" := Some (py "1")]> ∅);
    <[py "name" := Some (py "Eve")]> (<[py "favorite" := Some (py "yes")]> ∅) ].

Lemma bulk_import_appends_witness :
  ∃ w', bulk_import_csv noon noon (Some import_file) (world_of [alice])
        = (Imported 2, w') ∧
        read_contacts w'
        = [alice; mk "Dan" "5550005" "" "gym" false; mk "Eve" "" "" "" true].
Proof.
  destruct (bulk_import_appends noon noon import_file (world_of [alice])
              [mk "Dan" "5550005" "" " gym " false; mk "Eve" "" "" "" true])
    as (w' & Hi & Hr & _).
  - by vm_compute.
  - done.
  - exists w'. split; [exact Hi|]. rewrite Hr. by vm_compute.
Defined.

(** X15.  A bulk import is all or nothing.  One row whose name cell is
    [None] (a line too short to have it) makes the whole import fail, and
    a file with no named row imports nothing: in both cases the book, the
    snapshot and the backups are untouched, whatever the other rows
    hold. *)
Theorem bulk_import_all_or_nothing `{CaseTables} `{DigitTable} now1 now2
    rows w :
  (∀ row, row ∈ rows → row !! py "name" = Some None →
          bulk_import_csv now1 now2 (Some rows) w = (ImportFailed, w)) ∧
  (import_rows rows = Some [] →
   bulk_import_csv now1 now2 (Some rows) w = (ImportNoValid, w)) ∧
  bulk_import_csv now1 now2 None w = (ImportFileNotFound, w).
Proof.
  split_and!.
  - intros row Hin Hrow. unfold bulk_import_csv.
    by rewrite (import_rows_raises rows row).
  - intros Hr. unfold bulk_import_csv. by rewrite Hr.
  - done.
Qed.

Definition short_row : gmap (list N) (option (list N)) :=
  <[py "phone" := Some (py "555")]> (<[py "name" := None]> ∅).

Lemma bulk_import_all_or_nothing_witness :
  short_row ∈ import_file ++ [short_row] ∧
  bulk_import_csv noon noon (Some (import_file ++ [short_row]))
    (world_of [alice]) = (ImportFailed, world_of [alice]).
Proof.
  assert (short_row ∈ import_file ++ [short_row]) as Hin.
  { apply elem_of_app. right. by left. }
  split; [exact Hin|].
  refine (proj1 (bulk_import_all_or_nothing noon noon
                   (import_file ++ [short_row]) (world_of [alice]))
            short_row Hin _).
  by vm_compute.
Defined.

(** *** The scan of [merge_duplicates] as a whole *)

(** What every state of the scan over the contacts [cs0] satisfies: the
    names are those of [cs0], position by position, the contacts are
    valid, only positions after the first are consumed, and [merged_any]
    is set exactly when a position is. *)
Definition scan_inv (cs0 : list contact) (st : scan) : Prop :=
  name <$> contacts st = name <$> cs0 ∧
  Forall valid (contacts st) ∧
  (∀ j, j ∈ used st → 0 < j < length cs0) ∧
  (merged_any st = true ↔ used st ≠ ∅).

(** The answers that are neither M nor A. *)
Definition no_consent `{CaseTables} (line : list N) : Prop :=
  upper (strip line) ≠ py "M" ∧ upper (strip line) ≠ py "A".

(** The states of a scan in which every answer so far was a refusal, and
    every answer to come is. *)
Definition declined `{CaseTables} (cs0 : list contact) (st : scan) : Prop :=
  contacts st = cs0 ∧ used st = ∅ ∧ merged_any st = false ∧
  Forall no_consent (stdin st).

Definition holds (P : scan → Prop) (R : exn → scan → Prop) (r : result)
    : Prop :=
  match r with
  | Ok st => P st
  | Raise e st => R e st
  | NoFuel => True
  end.

Lemma for_each_holds {A} (P : scan → Prop) (R : exn → scan → Prop)
    (body : A → scan → result) xs :
  (∀ x st, x ∈ xs → P st → holds P R (body x st)) →
  ∀ st, P st → holds P R (for_each xs body st).
Proof.
  induction xs as [|x xs IH]; intros Hbody st Hst; simpl; [done|].
  pose proof (Hbody x st (list_elem_of_here _ _) Hst) as Hx.
  destruct (body x st) as [st1| |]; simpl in *; [|done..].
  apply IH; [|done]. intros y st2 Hy. apply Hbody. by right.
Qed.

Lemma filter_complement_length {A} (P : A → Prop) `{!∀ x, Decision (P x)}
    (l : list A) :
  length (filter P l) + length (filter (λ x, ¬ P x) l) = length l.
Proof.
  induction l as [|x l IH]; [done|].
  rewrite !filter_cons. destruct (decide (P x)).
  - rewrite decide_False by tauto. simpl. lia.
  - rewrite decide_True by done. simpl. lia.
Qed.

Lemma omap_ext_elem_of {A B} (f g : A → option B) (l : list A) :
  (∀ x, x ∈ l → f x = g x) → omap f l = omap g l.
Proof.
  induction l as [|x l IH]; intros Hfg; csimpl; [done|].
  rewrite (Hfg x) by left. rewrite IH; [done|].
  intros y Hy. apply Hfg. by right.
Qed.

Lemma picked_sublist {A} (P : nat → Prop) `{!∀ i, Decision (P i)}
    (l : list A) :
  omap (λ i, l !! i) (filter P (seq 0 (length l))) `sublist_of` l.
Proof.
  induction l as [|x l IH] using rev_ind; [done|].
  rewrite length_app. simpl. rewrite seq_app, filter_app, omap_app. simpl.
  apply sublist_app.
  - erewrite omap_ext_elem_of; [exact IH|].
    intros i [_ Hi%elem_of_seq]%list_elem_of_filter. simpl.
    apply lookup_app_l. lia.
  - rewrite filter_cons, filter_nil. case_decide; csimpl.
    + by rewrite list_lookup_middle.
    + apply sublist_nil_l.
Qed.

Lemma picked_length {A} (X : gset nat) (l : list A) :
  (∀ j, j ∈ X → j < length l) →
  length (omap (λ i, l !! i) (filter (λ i, i ∉ X) (seq 0 (length l))))
  + size X = length l.
Proof.
  intros HX.
  assert (∀ js, Forall (λ i, i < length l) js →
                length (omap (λ i, l !! i) js) = length js) as Hom.
  { induction 1 as [|j js Hj _ IH]; csimpl; [done|].
    destruct (lookup_lt_is_Some_2 l j Hj) as [x ->]. simpl. by rewrite IH. }
  rewrite Hom.
  2:{ apply Forall_forall.
      intros i [_ Hi%elem_of_seq]%list_elem_of_filter. lia. }
  pose proof (filter_complement_length (λ i, i ∈ X) (seq 0 (length l)))
    as Hc.
  rewrite length_seq in Hc.
  assert (filter (λ i, i ∈ X) (seq 0 (length l)) ≡ₚ elements X) as Hp.
  { apply NoDup_Permutation.
    - apply NoDup_filter, NoDup_seq.
    - apply NoDup_elements.
    - intros i. rewrite list_elem_of_filter, elem_of_seq, elem_of_elements.
      split; [tauto|]. intros Hi. specialize (HX i Hi). split; [done|lia]. }
  unfold size, set_size. simpl. rewrite <- Hp. unfold not in *. lia.
Qed.

Section MergeScan.
Context `{CaseTables}.

Lemma scan_inv_length cs0 st :
  scan_inv cs0 st → length (contacts st) = length cs0.
Proof.
  intros (Hnames & _).
  by rewrite <- (length_fmap name), Hnames, length_fmap.
Qed.

Lemma scan_inv_start cs0 lines :
  Forall valid cs0 → scan_inv cs0 (scan_start cs0 lines).
Proof. intros Hv. unfold scan_inv. simpl. split_and!; [done|done|set_solver|done]. Qed.

Lemma visit_pair_step thr cs0 i j st :
  i < j < length cs0 → scan_inv cs0 st →
  holds (scan_inv cs0) (λ e st', e = EOFError ∧ stdin st' = [])
        (visit_pair thr i j st).
Proof.
  intros Hij Hst. pose proof (scan_inv_length cs0 st Hst) as Hlen.
  destruct Hst as (Hnames & Hvalid & Hused & Hany).
  unfold visit_pair. case_decide; [done|].
  destruct (lookup_lt_is_Some_2 (contacts st) i) as [c Hc]; [lia|].
  destruct (lookup_lt_is_Some_2 (contacts st) j) as [src Hsrc]; [lia|].
  rewrite Hc, Hsrc.
  destruct (name_similarity (name c) (name src)) as [sim|]; [|done].
  destruct (Qle_bool thr sim); [|done]. simpl.
  destruct (stdin st) as [|line rest]; [done|].
  assert (scan_inv cs0
            {| contacts := <[i := merge_into c src]> (contacts st);
               used := {[j]} ∪ used st; merged_any := true; stdin := rest;
               prompts := prompts st ++ [(name c, name src, sim)];
               comparisons := S (comparisons st) |}) as Hmerged.
  { unfold scan_inv. simpl. split_and!.
    - rewrite list_fmap_insert. simpl. rewrite list_insert_id; [done|].
      by rewrite list_lookup_fmap, Hc.
    - apply Forall_insert; [done|].
      rewrite Forall_forall in Hvalid.
      destruct (Hvalid src) as (_ & _ & Hp & He & _).
      { by eapply list_elem_of_lookup_2. }
      apply merge_into_valid; [|done..].
      apply Hvalid. by eapply list_elem_of_lookup_2.
    - intros k [->%elem_of_singleton|Hk]%elem_of_union; [lia|by apply Hused].
    - split; [|done]. intros _ Hempty.
      assert (j ∈ ({[j]} ∪ used st : gset nat)) as Hj
        by (apply elem_of_union_l; by apply elem_of_singleton).
      rewrite Hempty in Hj. by apply elem_of_empty in Hj. }
  destruct (bool_decide (upper (strip line) = py "M")
            || bool_decide (upper (strip line) = py "A")).
  - by destruct (bool_decide (upper (strip line) = py "A")).
  - done.
Qed.

Lemma visit_target_step thr cs0 i st :
  scan_inv cs0 st →
  holds (scan_inv cs0) (λ e st', e = EOFError ∧ stdin st' = [])
        (visit_target thr (length cs0) i st).
Proof.
  intros Hst. unfold visit_target, inner_loop. case_decide; [done|].
  apply for_each_holds; [|done].
  intros j st1 Hj%elem_of_seq Hst1. apply visit_pair_step; [lia|done].
Qed.

Lemma scan_pairs_step thr cs0 st :
  scan_inv cs0 st →
  holds (scan_inv cs0) (λ e st', e = EOFError ∧ stdin st' = [])
        (scan_pairs thr (length cs0) st).
Proof.
  intros Hst. unfold scan_pairs. apply for_each_holds; [|done].
  intros i st1 _ Hst1. by apply visit_target_step.
Qed.

Lemma visit_pair_declined thr cs0 i j st :
  declined cs0 st → holds (declined cs0) (λ _ _, True) (visit_pair thr i j st).
Proof.
  intros (Hcs & Hused & Hany & Hlines).
  unfold visit_pair. case_decide; [done|].
  destruct (contacts st !! i) as [c|]; [|done].
  destruct (contacts st !! j) as [src|]; [|done].
  destruct (name_similarity (name c) (name src)) as [sim|]; [|done].
  destruct (Qle_bool thr sim); [|done]. simpl.
  destruct (stdin st) as [|line rest]; [done|].
  apply Forall_cons in Hlines as [[HM HA] Hrest].
  rewrite !bool_decide_eq_false_2 by done. by simpl.
Qed.

Lemma scan_pairs_declined thr cs0 n st :
  declined cs0 st → holds (declined cs0) (λ _ _, True) (scan_pairs thr n st).
Proof.
  intros Hst. unfold scan_pairs. apply for_each_holds; [|done].
  intros i st1 _ Hst1. unfold visit_target, inner_loop.
  case_decide; [done|]. apply for_each_holds; [|done].
  intros j st2 _ Hst2. by apply visit_pair_declined.
Qed.

Lemma new_contacts_first st c :
  contacts st !! 0 = Some c → 0 ∉ used st →
  head (new_contacts st) = Some c.
Proof.
  intros Hc H0. unfold new_contacts, kept_indices.
  destruct (contacts st) as [|d cs]; [done|]. simpl.
  rewrite filter_cons, decide_True by done. csimpl. by simplify_eq/=.
Qed.

End MergeScan.

(** X16.  When [merge_duplicates] reports "Duplicates merged and saved.",
    the book read back is the list it built: one contact fewer for each
    position consumed, so strictly fewer than before; the names left are
    names of the old book, in the old order; the first contact of the book
    is still first, under its name; and [undo_last_write] brings the old
    book back. *)
Theorem merge_saved_book `{CaseTables} now1 now2 thr lines w r :
  merge_duplicates now1 now2 thr lines w = Some r →
  outcome r = MergedAndSaved →
  read_contacts (world_end r) = new_contacts (scan_end r) ∧
  length (read_contacts (world_end r)) + size (used (scan_end r))
  = length (read_contacts w) ∧
  length (read_contacts (world_end r)) < length (read_contacts w) ∧
  name <$> read_contacts (world_end r) `sublist_of` name <$> read_contacts w ∧
  name <$> head (read_contacts (world_end r))
  = name <$> head (read_contacts w) ∧
  ∀ now3 now4,
    ∃ w', undo_last_write now3 now4 (world_end r) = (UndoSuccessful, w') ∧
          read_contacts w' = read_contacts w.
Proof.
  unfold merge_duplicates.
  destruct (Nat.ltb_spec (length (read_contacts w)) 2) as [|Hn].
  { by intros [= <-]. }
  pose proof (scan_pairs_step thr (read_contacts w)
                (scan_start (read_contacts w) lines)
                (scan_inv_start _ lines (read_contacts_valid w))) as Hscan.
  destruct (scan_pairs thr (length (read_contacts w)) _) as [st| |];
    [|by intros [= <-]|done].
  destruct (merged_any st) eqn:Hany; [|by intros [= <-]].
  intros [= <-] _. simpl in *.
  pose proof (scan_inv_length _ _ Hscan) as Hlen.
  destruct Hscan as (Hnames & Hvalid & Hused & Hiff).
  assert (Forall valid (new_contacts st)) as Hnew.
  { apply Forall_forall. intros c (i & _ & Hi)%list_elem_of_omap.
    rewrite Forall_forall in Hvalid. apply Hvalid.
    by eapply list_elem_of_lookup_2. }
  assert (length (new_contacts st) + size (used st)
          = length (read_contacts w)) as Hsize.
  { rewrite <- Hlen. apply picked_length.
    intros j Hj. specialize (Hused j Hj). lia. }
  assert (0 < size (used st)) as Hpos.
  { destruct (decide (size (used st) = 0)) as [Hz|]; [|lia].
    apply size_empty_iff, leibniz_equiv in Hz. by apply Hiff in Hz. }
  rewrite (read_after_write now1 now2 _ w Hnew).
  split_and!; [done|done|lia| | |].
  - rewrite <- Hnames. apply fmap_sublist, picked_sublist.
  - destruct (lookup_lt_is_Some_2 (contacts st) 0) as [c Hc]; [lia|].
    rewrite (new_contacts_first st c Hc).
    2:{ intros H0. specialize (Hused 0 H0). lia. }
    apply (f_equal (λ l, l !! 0)) in Hnames.
    rewrite !list_lookup_fmap, Hc in Hnames.
    by rewrite (head_lookup (read_contacts w)), <- Hnames.
  - intros now3 now4.
    destruct (undo_after_write now1 now2 now3 now4 (new_contacts st) w)
      as (w' & Hu & Hr & _).
    + intros Hnil. rewrite Hnil in Hn. simpl in Hn. lia.
    + by exists w'.
Qed.

Lemma merge_saved_book_witness :
  ∃ r, merge_duplicates noon noon (85 # 100) [py "S"; py " m "]
         (world_of [jon; jonn; jon_again]) = Some r ∧
       length (read_contacts (world_end r)) + size (used (scan_end r)) = 3 ∧
       ∃ w', undo_last_write noon noon (world_end r) = (UndoSuccessful, w') ∧
             read_contacts w' = [jon; jonn; jon_again].
Proof.
  destruct (merge_duplicates noon noon (85 # 100) [py "S"; py " m "]
              (world_of [jon; jonn; jon_again])) as [r|] eqn:E;
    [|by vm_compute in E].
  destruct (merge_saved_book noon noon (85 # 100) [py "S"; py " m "]
              (world_of [jon; jonn; jon_again]) r E)
    as (_ & Hsize & _ & _ & _ & Hundo).
  - vm_compute in E. by injection E as <-.
  - exists r. split; [done|]. split; [exact Hsize|].
    destruct (Hundo noon noon) as (w' & Hu & Hr).
    exists w'. split; [exact Hu|]. rewrite Hr. by vm_compute.
Defined.

(** X17.  Nothing is merged without consent.  When no line typed is M or
    A (blanks and letter case apart), [merge_duplicates] does not save:
    the book, the snapshot and the backups are as before, however many
    pairs were shown. *)
Theorem merge_needs_consent `{CaseTables} now1 now2 thr lines w :
  Forall no_consent lines →
  ∃ r, merge_duplicates now1 now2 thr lines w = Some r ∧
       outcome r ≠ MergedAndSaved ∧ world_end r = w.
Proof.
  intros Hlines.
  destruct (merge_duplicates_total now1 now2 thr lines w) as [r Hr].
  exists r. split; [done|]. revert Hr. unfold merge_duplicates.
  case_match; [by intros [= <-]|].
  pose proof (scan_pairs_declined thr (read_contacts w)
                (length (read_contacts w))
                (scan_start (read_contacts w) lines)) as Hscan.
  destruct (scan_pairs thr _ _) as [st| |]; [|by intros [= <-]|done].
  destruct Hscan as (_ & _ & -> & _); [done|]. by intros [= <-].
Qed.

Lemma merge_needs_consent_witness :
  ∃ r, merge_duplicates noon noon (85 # 100) [py "s"; py ""; py "merge"]
         (world_of [jon; jonn; jon_again]) = Some r ∧
       outcome r ≠ MergedAndSaved ∧
       world_end r = world_of [jon; jonn; jon_again].
Proof.
  apply (merge_needs_consent noon noon (85 # 100)
           [py "s"; py ""; py "merge"] (world_of [jon; jonn; jon_again])).
  repeat constructor; by vm_compute.
Defined.

(** X18.  [merge_duplicates] fails in one way only: the input ends while a
    pair is shown.  Every line typed has then been read, and nothing is
    saved, the merges accepted before that point included. *)
Theorem merge_fails_only_at_eof `{CaseTables} now1 now2 thr lines w r e :
  merge_duplicates now1 now2 thr lines w = Some r →
  outcome r = MergeFailed e →
  e = EOFError ∧ stdin (scan_end r) = [] ∧ world_end r = w.
Proof.
  unfold merge_duplicates. case_match; [by intros [= <-]|].
  pose proof (scan_pairs_step thr (read_contacts w)
                (scan_start (read_contacts w) lines)
                (scan_inv_start _ lines (read_contacts_valid w))) as Hscan.
  destruct (scan_pairs thr _ _) as [st|e' st|]; [| |done].
  - by destruct (merged_any st); intros [= <-].
  - destruct Hscan as [-> Hin]. by intros [= <-] [= <-].
Qed.

Lemma merge_fails_only_at_eof_witness :
  ∃ r, merge_duplicates noon noon (85 # 100) [py "M"]
         (world_of [jon; jonn; jon_again]) = Some r ∧
       outcome r = MergeFailed EOFError ∧
       used (scan_end r) = {[1]} ∧
       world_end r = world_of [jon; jonn; jon_again].
Proof.
  destruct (merge_duplicates noon noon (85 # 100) [py "M"]
              (world_of [jon; jonn; jon_again])) as [r|] eqn:E;
    [|by vm_compute in E].
  assert (outcome r = MergeFailed EOFError ∧ used (scan_end r) = {[1]})
    as [Ho Hu].
  { vm_compute in E. injection E as <-. split; [done|].
    apply leibniz_equiv. intros j. by vm_compute. }
  destruct (merge_fails_only_at_eof noon noon (85 # 100) [py "M"]
              (world_of [jon; jonn; jon_again]) r EOFError E Ho)
    as (_ & _ & Hw).
  exists r. split; [reflexivity|]. split; [exact Ho|]. split; [exact Hu|].
  rewrite Hw. reflexivity.
Defined.

(** *** Exporting a vCard *)



Definition oneil : contact := mk "O'Neil/Jr." "5550006" "" "" false.


(** *** E-mail addresses as the program checks them *)

Lemma filter_none {A} (P : A → Prop) `{!∀ x, Decision (P x)} (l : list A) :
  Forall (λ x, ¬ P x) l → filter P l = [].
Proof.
  induction 1 as [|x l Hx _ IH]; [done|].
  by rewrite filter_cons, decide_False.
Qed.

Lemma stripped_no_final_newline (s s' : list N) :
  strip s = s → s ≠ s' ++ [10%N].
Proof.
  intros [_ Hr]%strip_fixed_iff ->.
  rewrite reverse_app in Hr. by vm_compute in Hr.
Qed.

(** X20.  [add_contact_interactive] and [update_contact_interactive] pass
    [is_valid_email] a stripped answer only, and on stripped text it accepts
    exactly the shape [local@domain.tld]: the text then holds no
    whitespace and one [@], and the "invalid email" warning is shown for
    every other non-empty answer. *)
Theorem email_check_on_answers line :
  (is_valid_email (strip line) = true ↔ email_shape (strip line)) ∧
  (is_valid_email (strip line) = true →
   Forall (λ c, isspace c = false) (strip line) ∧
   length (filter (λ c, c = 64%N) (strip line)) = 1 ∧
   6 ≤ length (strip line)).
Proof.
  assert (is_valid_email (strip line) = true ↔ email_shape (strip line))
    as Hiff.
  { rewrite is_valid_email_spec. split; [|by left].
    intros [Hs|(s' & Hs' & _)]; [done|].
    by apply stripped_no_final_newline in Hs'; [|apply strip_idemp]. }
  split; [done|]. intros Hv%Hiff.
  split; [by apply email_shape_no_space|].
  destruct Hv as (l & d & t & -> & Hl0 & Hd0 & Hl & Hd & Ht2 & Ht).
  assert (∀ u, Forall (λ c, not_at_space c = true) u →
               filter (λ c, c = 64%N) u = []) as Hno.
  { intros u Hu. apply filter_none. eapply Forall_impl; [exact Hu|].
    intros c Hc ->. by vm_compute in Hc. }
  split.
  - rewrite !filter_app, (Hno l Hl), (Hno d Hd).
    rewrite (filter_none _ t).
    + by vm_compute.
    + eapply Forall_impl; [exact Ht|]. intros c Hc ->. by vm_compute in Hc.
  - rewrite !length_app. simpl.
    destruct l; [done|]. destruct d; [done|]. simpl. lia.
Qed.

Lemma email_check_on_answers_witness :
  is_valid_email (strip (py "  ann@example.org ")) = true ∧
  length (filter (λ c, c = 64%N) (strip (py "  ann@example.org "))) = 1.
Proof.
  assert (is_valid_email (strip (py "  ann@example.org ")) = true) as Hv
    by (by vm_compute).
  split; [exact Hv|].
  exact (proj1 (proj2 (proj2 (email_check_on_answers
                                (py "  ann@example.org ")) Hv))).
Defined.

End ContactManager.
